(** * Natalie: the Bignum integer object and the top-level entry point

    A shallow embedding of [include/natalie/bignum_object.hpp] and
    [src/main.cpp], with the properties of the numeric core stated and
    proved over it.

    Conventions of the embedding:
    - a [BigInt] (the arbitrary-precision kernel value) is the integer it
      denotes, a [Z]; what the kernel computes from strings and doubles, and
      how it renders a value, are fields of the [Kernel] class;
    - a pointer is an [option loc], [None] being [nullptr]; the store of
      [BigInt] cells and of [BignumObject] cells is a pair of finite maps;
    - a function that dereferences a pointer returns [None] where C++ leaves
      the behaviour undefined (null or released pointer). *)

From Stdlib Require Import ZArith String Ascii DecimalString HexadecimalString.
From stdpp Require Import base option numbers gmap strings list.

Local Open Scope Z_scope.

(** ** The kernel and the platform constants *)

Abbreviation loc := positive (only parsing).
Abbreviation BigInt := Z (only parsing).

(** What [natalie/big_int.hpp] and the platform macros provide. The header is
    not part of the sources under study: its operations are taken as
    parameters. Ordering on [BigInt] is the order of the integers denoted. *)
Class Kernel := {
  (** [NAT_INT_MAX], the largest Compact integer. *)
  NAT_INT_MAX : Z;
  (** [NAT_INT_MIN], the smallest Compact integer. *)
  NAT_INT_MIN : Z;
  (** The C++ type [double]. *)
  double : Type;
  (** [BigInt(const String &)]; [None] when the kernel rejects the numeral. *)
  BigInt_of_String : string → option BigInt;
  (** [BigInt(const double &)]; [None] when the kernel rejects the number. *)
  BigInt_of_double : double → option BigInt;
  (** [BigInt::to_string]. *)
  BigInt_to_string : BigInt → string;
  (** How [snprintf] renders [%p]. *)
  format_pointer : loc → string;
}.

(** ** Objects *)

(** A [BignumObject]: the integer field inherited from [IntegerObject] and
    the owning pointer [m_bigint]. *)
Record BignumObject := {
  m_integer : Z;
  m_bigint : option loc;
}.

(** The store: the live [BigInt] cells and the live [BignumObject] cells. *)
Record Memory := {
  bigints : gmap loc BigInt;
  objects : gmap loc BignumObject;
}.

(** What C++ leaves undefined on the destruction paths. *)
Inductive fault :=
| DoubleFree (p : loc)
| InvalidObject (a : loc).

(** The result of a destruction path: the new store, or the fault. *)
Inductive outcome (A : Type) :=
| Done (a : A)
| Fault (f : fault).
Arguments Done {A} a.
Arguments Fault {A} f.

(** [*p] for a [BigInt *]. *)
Definition deref (h : gmap loc BigInt) (p : option loc) : option BigInt :=
  p ≫= λ l, h !! l.

Section BignumObject.
Context `{K : Kernel}.

(** [static inline const BigInt MAX_INT = NAT_INT_MAX;] *)
Definition MAX_INT : BigInt := NAT_INT_MAX.
(** [static inline const BigInt MIN_INT = NAT_INT_MIN;] *)
Definition MIN_INT : BigInt := NAT_INT_MIN.

(** [bool is_bignum() const override { return true; }] *)
Definition is_bignum (this : BignumObject) : bool := true.

(** [BigInt to_bigint() const override { return *m_bigint; }] *)
Definition to_bigint (this : BignumObject) (h : gmap loc BigInt) : option BigInt :=
  deref h (m_bigint this).

(** [return *m_bigint > MAX_INT || *m_bigint < MIN_INT;] *)
Definition has_to_be_bignum (this : BignumObject) (h : gmap loc BigInt) : option bool :=
  b ← deref h (m_bigint this);
  Some ((b >? MAX_INT) || (b <? MIN_INT)).

(** A [char] widened to [int] ([char] is signed on the platforms Natalie
    targets). *)
Definition char_to_int (c : ascii) : Z :=
  let n := Z.of_N (N_of_ascii c) in
  if n <? 128 then n else n - 256.

(** [String::last_char]; only called on a string that is not empty. *)
Fixpoint last_char (s : string) : ascii :=
  match s with
  | EmptyString => Ascii.zero
  | String c EmptyString => c
  | String _ s' => last_char s'
  end.

(** [is_odd]: the parity of the last character of the rendering, and
    [true] for an empty rendering. [%] is C++ remainder, [Z.rem]. *)
Definition is_odd (this : BignumObject) (h : gmap loc BigInt) : option bool :=
  b ← deref h (m_bigint this);
  if negb (String.length (BigInt_to_string b) =? 0)%nat then
    let last_digit := char_to_int (last_char (BigInt_to_string b)) - char_to_int "0" in
    let is_odd := negb (Z.rem last_digit 2 =? 0) in
    Some is_odd
  else
    Some true.

(** *** Construction *)

(** [new BigInt(v)]: a cell that is not live at the moment, holding [v]. *)
Definition new_BigInt (v : BigInt) (h : gmap loc BigInt) : loc * gmap loc BigInt :=
  let p := fresh (dom h) in (p, <[p := v]> h).

(** [BignumObject(const String &num)
       : IntegerObject { -1 }, m_bigint(new BigInt(num)) { }] *)
Definition BignumObject_of_String (num : string) (h : gmap loc BigInt)
  : option (BignumObject * gmap loc BigInt) :=
  v ← BigInt_of_String num;
  let '(p, h') := new_BigInt v h in
  Some ({| m_integer := -1; m_bigint := Some p |}, h').

(** [BignumObject(const BigInt &other)
       : IntegerObject { -1 }, m_bigint(new BigInt(other)) { }];
    [other] is the cell the reference designates. *)
Definition BignumObject_of_BigInt (other : loc) (h : gmap loc BigInt)
  : option (BignumObject * gmap loc BigInt) :=
  v ← h !! other;
  let '(p, h') := new_BigInt v h in
  Some ({| m_integer := -1; m_bigint := Some p |}, h').

(** [BignumObject(const double &num)
       : IntegerObject { -1 }, m_bigint(new BigInt(num)) { }] *)
Definition BignumObject_of_double (num : double) (h : gmap loc BigInt)
  : option (BignumObject * gmap loc BigInt) :=
  v ← BigInt_of_double num;
  let '(p, h') := new_BigInt v h in
  Some ({| m_integer := -1; m_bigint := Some p |}, h').

(** The three construction paths, as overload resolution selects them. *)
Inductive construction :=
| FromString (num : string)
| FromBigInt (other : loc)
| FromDouble (num : double).

Definition construct (c : construction) (h : gmap loc BigInt)
  : option (BignumObject * gmap loc BigInt) :=
  match c with
  | FromString num => BignumObject_of_String num h
  | FromBigInt other => BignumObject_of_BigInt other h
  | FromDouble num => BignumObject_of_double num h
  end.

(** The kernel value a construction path starts from. *)
Definition construction_value (c : construction) (h : gmap loc BigInt) : option BigInt :=
  match c with
  | FromString num => BigInt_of_String num
  | FromBigInt other => h !! other
  | FromDouble num => BigInt_of_double num
  end.

(** [new BignumObject { ... }]: the constructor runs, and the object is
    placed in a cell that is not live at the moment. *)
Definition new_BignumObject (c : construction) (m : Memory) : option (loc * Memory) :=
  '(o, h') ← construct c (bigints m);
  let a := fresh (dom (objects m)) in
  Some (a, {| bigints := h'; objects := <[a := o]> (objects m) |}).

(** *** Destruction *)

(** [delete p] for a [BigInt *] that is not null: the cell is released;
    releasing a cell that is not live is a double free. *)
Definition delete_BigInt (p : loc) (h : gmap loc BigInt) : outcome (gmap loc BigInt) :=
  match h !! p with
  | Some _ => Done (delete p h)
  | None => Fault (DoubleFree p)
  end.

(** [~BignumObject() { if (m_bigint) delete m_bigint; }], run on the object
    in cell [this]. No field of the object is written. *)
Definition destructor (this : loc) (m : Memory) : outcome Memory :=
  match objects m !! this with
  | None => Fault (InvalidObject this)
  | Some o =>
      match m_bigint o with
      | Some p =>
          match delete_BigInt p (bigints m) with
          | Done h' => Done {| bigints := h'; objects := objects m |}
          | Fault f => Fault f
          end
      | None => Done m
      end
  end.

(** Reclaiming the object in cell [this]: its destructor runs, then its own
    storage is released. *)
Definition reclaim (this : loc) (m : Memory) : outcome Memory :=
  match destructor this m with
  | Done m' => Done {| bigints := bigints m'; objects := delete this (objects m') |}
  | Fault f => Fault f
  end.

(** *** Inspection *)

Definition NUL : ascii := Ascii.zero.

(** [snprintf(buf, len, ...)] once the arguments are formatted into [text]:
    at most [len - 1] characters of [text] are stored, then a terminating
    [NUL]; nothing is stored when [len] is [0]. The caller passes a buffer
    of at least [len] characters. *)
Definition snprintf (buf : list ascii) (len : nat) (text : string) : list ascii :=
  match len with
  | O => buf
  | S n =>
      let out := take n (list_ascii_of_string text) ++ [NUL] in
      out ++ drop (length out) buf
  end.

(** A [String] read as a C string, which is what [c_str()] hands to [%s]:
    the characters before the first [NUL]. *)
Fixpoint c_str (s : string) : string :=
  match s with
  | EmptyString => EmptyString
  | String c s' => if Ascii.eqb c NUL then EmptyString else String c (c_str s')
  end.

(** [snprintf(buf, len, "<IntegerObject %p bignum=%s>", this,
             m_bigint->to_string().c_str());]
    [%s] copies the rendering of the kernel value up to its first [NUL];
    [%p] gives printing characters only, so the rendering of the pointer is
    read the same way. *)
Definition gc_inspect (this : loc) (o : BignumObject) (h : gmap loc BigInt)
    (buf : list ascii) (len : nat) : option (list ascii) :=
  b ← deref h (m_bigint o);
  Some (snprintf buf len
          ("<IntegerObject " ++ c_str (format_pointer this) ++ " bignum="
             ++ c_str (BigInt_to_string b) ++ ">")%string).

(** *** The objects of a running program *)

(** [p] is the kernel value of some live object. *)
Definition owned (m : Memory) (p : loc) : Prop :=
  ∃ a o, objects m !! a = Some o ∧ m_bigint o = Some p.

(** What a program can do to the store. [m_bigint] is private and no method
    hands it out, so code outside the class reaches only kernel values that
    no object owns. *)
Inductive step : Memory → Memory → Prop :=
| step_new c m a m' :
    new_BignumObject c m = Some (a, m') →
    step m m'
| step_reclaim a m m' :
    reclaim a m = Done m' →
    step m m'
| step_kernel_new v m :
    step m {| bigints := (new_BigInt v (bigints m)).2; objects := objects m |}
| step_kernel_assign p v m :
    is_Some (bigints m !! p) → ¬ owned m p →
    step m {| bigints := <[p := v]> (bigints m); objects := objects m |}
| step_kernel_release p m :
    ¬ owned m p →
    step m {| bigints := delete p (bigints m); objects := objects m |}.

(** Exclusive ownership: every live object holds a live kernel value, its
    inherited integer field is [-1], and no two objects hold the same
    kernel value. *)
Record exclusive (m : Memory) : Prop := {
  excl_live : ∀ a o, objects m !! a = Some o →
              m_integer o = -1 ∧ ∃ p, m_bigint o = Some p ∧ is_Some (bigints m !! p);
  excl_unshared : ∀ a1 a2 o1 o2 p,
              objects m !! a1 = Some o1 → objects m !! a2 = Some o2 →
              m_bigint o1 = Some p → m_bigint o2 = Some p → a1 = a2;
}.

End BignumObject.

(** The character of the decimal digit [d]. *)
Definition digit_char (d : nat) : ascii := ascii_of_nat (48 + d).

(** The parity test [is_odd] applies to a character. *)
Definition char_odd (c : ascii) : bool :=
  negb (Z.rem (char_to_int c - char_to_int "0") 2 =? 0).

(** The parity of the first digit of a decimal numeral (its units digit,
    when the numeral is written units first). *)
Definition head_parity (l : Decimal.uint) : option bool :=
  match l with
  | Decimal.Nil => None
  | Decimal.D0 _ | Decimal.D2 _ | Decimal.D4 _ | Decimal.D6 _ | Decimal.D8 _ => Some false
  | _ => Some true
  end.

(** The parity of the last digit of a decimal numeral. *)
Fixpoint last_parity (d : Decimal.uint) : option bool :=
  match d with
  | Decimal.Nil => None
  | Decimal.D0 d' | Decimal.D2 d' | Decimal.D4 d' | Decimal.D6 d' | Decimal.D8 d' =>
      match last_parity d' with Some b => Some b | None => Some false end
  | Decimal.D1 d' | Decimal.D3 d' | Decimal.D5 d' | Decimal.D7 d' | Decimal.D9 d' =>
      match last_parity d' with Some b => Some b | None => Some true end
  end.

(** ** The Integer facade *)

(** Modelled from the spec: the runtime exceptions of the numeric core. The
    exception classes are missing from the sources; the spec names one
    domain error, division by zero, kept apart from every other exception. *)
Inductive ExceptionObject :=
| ZeroDivisionError
| OtherException (class_name : string).

(** An evaluation that returns a value or raises an exception. *)
Inductive completion (A : Type) :=
| Returns (a : A)
| Raises (exception : ExceptionObject).
Arguments Returns {A} a.
Arguments Raises {A} exception.

(** Modelled from the spec: the integer value as the closed sum of its two
    representations (spec sections 3 and 9). The bodies of [IntegerObject]
    and of the arithmetic of [BignumObject] are missing from the sources;
    only the declarations [add], [sub], [mul], [div], [negate] are there. *)
Inductive Integer :=
| Compact (n : Z)
| Extended (k : BigInt).

(** The mathematical integer a value stands for. *)
Definition magnitude (x : Integer) : Z :=
  match x with
  | Compact n => n
  | Extended k => k
  end.

Module Facade.
Section Facade.
Context `{K : Kernel}.

(** Modelled from the spec: "fits within [[MIN_WORD, MAX_WORD]]". *)
Definition fits (r : Z) : bool := (NAT_INT_MIN <=? r) && (r <=? NAT_INT_MAX).

(** Modelled from the spec: the demotion policy of section 4.2, "if the
    resulting magnitude fits within [[MIN_WORD, MAX_WORD]], the operation
    returns a Compact value; otherwise it returns a new Extended value
    wrapping the Kernel result". *)
Definition demote (r : BigInt) : Integer :=
  if fits r then Compact r else Extended r.

(** Modelled from the spec: the overflow detection of the Compact
    operations (section 4.1), whose bodies in [IntegerObject] are missing;
    [None] is "promotion required". *)
Definition compact_checked (r : Z) : option Z :=
  if fits r then Some r else None.

(** Modelled from the spec: Compact addition (section 4.1), missing from the
    sources. *)
Definition compact_add (n m : Z) : option Z := compact_checked (n + m).

(** Modelled from the spec: Compact subtraction (section 4.1), missing from
    the sources. *)
Definition compact_sub (n m : Z) : option Z := compact_checked (n - m).

(** Modelled from the spec: Compact multiplication (section 4.1), missing
    from the sources. *)
Definition compact_mul (n m : Z) : option Z := compact_checked (n * m).

(** Modelled from the spec: Compact negation (section 4.1), missing from the
    sources. *)
Definition compact_negate (n : Z) : option Z := compact_checked (- n).

(** Modelled from the spec: Compact division (section 4.1), missing from the
    sources; the quotient "rounds toward negative infinity", and a zero
    divisor is the domain error of section 7. *)
Definition compact_div (n m : Z) : completion (option Z) :=
  if m =? 0 then Raises ZeroDivisionError else Returns (compact_checked (n / m)).

(** Modelled from the spec: the Compact modulus (property P6), missing from
    the sources; it carries the sign of the divisor. *)
Definition compact_mod (n m : Z) : completion (option Z) :=
  if m =? 0 then Raises ZeroDivisionError else Returns (compact_checked (n mod m)).

(** Modelled from the spec: "coercing the right-hand operand into a Kernel
    value if it is Compact". *)
Definition to_kernel (x : Integer) : BigInt := magnitude x.

(** Modelled from the spec: the body of [BignumObject::add], missing from
    the sources (section 4.2): the kernel sum, then the demotion policy. *)
Definition extended_add (k : BigInt) (rhs : Integer) : Integer :=
  demote (k + to_kernel rhs).

(** Modelled from the spec: the body of [BignumObject::sub], missing from
    the sources (section 4.2). *)
Definition extended_sub (k : BigInt) (rhs : Integer) : Integer :=
  demote (k - to_kernel rhs).

(** Modelled from the spec: the body of [BignumObject::mul], missing from
    the sources (section 4.2). *)
Definition extended_mul (k : BigInt) (rhs : Integer) : Integer :=
  demote (k * to_kernel rhs).

(** Modelled from the spec: the body of [BignumObject::negate], missing from
    the sources (section 4.2). *)
Definition extended_negate (k : BigInt) : Integer :=
  demote (- k).

(** Modelled from the spec: the body of [BignumObject::div], missing from
    the sources (sections 4.2, 4.3 and 7): floor division by the kernel,
    then the demotion policy; a zero divisor is the domain error. *)
Definition extended_div (k : BigInt) (rhs : Integer) : completion Integer :=
  if to_kernel rhs =? 0 then Raises ZeroDivisionError
  else Returns (demote (k / to_kernel rhs)).

(** Modelled from the spec: the Extended modulus (property P6), which the
    class does not even declare; it carries the sign of the divisor. *)
Definition extended_mod (k : BigInt) (rhs : Integer) : completion Integer :=
  if to_kernel rhs =? 0 then Raises ZeroDivisionError
  else Returns (demote (k mod to_kernel rhs)).

(** Modelled from the spec: the Facade, missing from the sources, with the
    two-phase policy of section 4.3. Two Compact operands go to the Compact
    operation, and on "promotion required" both are promoted and the
    Extended operation is applied; any other pair goes to the Extended
    operation. *)
Definition add (a b : Integer) : Integer :=
  match a, b with
  | Compact n, Compact m =>
      match compact_add n m with
      | Some r => Compact r
      | None => extended_add (to_kernel a) b
      end
  | _, _ => extended_add (to_kernel a) b
  end.

(** Modelled from the spec: the Facade's subtraction, missing from the sources
    (section 4.3). *)
Definition sub (a b : Integer) : Integer :=
  match a, b with
  | Compact n, Compact m =>
      match compact_sub n m with
      | Some r => Compact r
      | None => extended_sub (to_kernel a) b
      end
  | _, _ => extended_sub (to_kernel a) b
  end.

(** Modelled from the spec: the Facade's multiplication, missing from the sources
    (section 4.3). *)
Definition mul (a b : Integer) : Integer :=
  match a, b with
  | Compact n, Compact m =>
      match compact_mul n m with
      | Some r => Compact r
      | None => extended_mul (to_kernel a) b
      end
  | _, _ => extended_mul (to_kernel a) b
  end.

(** Modelled from the spec: the Facade's negation, missing from the sources
    (section 4.3). *)
Definition negate (a : Integer) : Integer :=
  match a with
  | Compact n =>
      match compact_negate n with
      | Some r => Compact r
      | None => extended_negate (to_kernel a)
      end
  | Extended k => extended_negate k
  end.

(** Modelled from the spec: the Facade's division, missing from the sources
    (section 4.3). *)
Definition div (a b : Integer) : completion Integer :=
  match a, b with
  | Compact n, Compact m =>
      match compact_div n m with
      | Raises exception => Raises exception
      | Returns (Some r) => Returns (Compact r)
      | Returns None => extended_div (to_kernel a) b
      end
  | _, _ => extended_div (to_kernel a) b
  end.

(** Modelled from the spec: the Facade's modulus, missing from the sources
    (section 4.3). *)
Definition mod_ (a b : Integer) : completion Integer :=
  match a, b with
  | Compact n, Compact m =>
      match compact_mod n m with
      | Raises exception => Raises exception
      | Returns (Some r) => Returns (Compact r)
      | Returns None => extended_mod (to_kernel a) b
      end
  | _, _ => extended_mod (to_kernel a) b
  end.

End Facade.
End Facade.

(** ** The entry point *)

(** An [Object]; an [Object *] or [Value] is an [option Object], [None]
    being [nullptr]. *)
Inductive Object :=
| NilObject
| OtherObject (a : loc).

(** What the code substituted for [/*NAT_EVAL_BODY*/] does: it reaches its
    end, or executes a [return], or throws an [ExceptionObject *]. *)
Inductive body_completion :=
| falls_through
| returns (v : option Object)
| throws (exception : ExceptionObject).

(** A compiled program: its body, and whether [run_at_exit_handlers]
    returns ([None]) or throws. *)
Record Program := {
  NAT_EVAL_BODY : body_completion;
  run_at_exit_handlers : option ExceptionObject;
}.

(** The calls into the runtime that [EVAL] and [main] make, in order.
    [handle_top_level_exception] and [clean_up_and_exit] are missing from
    the sources; the former is taken to report the exception and return. *)
Inductive event :=
| at_exit_handlers_run
| top_level_exception_handled (exception : ExceptionObject) (run_exit_handlers : bool)
| cleaned_up_and_exited (return_code : Z).

Inductive termination :=
| Exited (return_code : Z)
| Aborted.

(** [EVAL]: [volatile bool run_exit_handlers = true;], then the [try]
    block. An exception of the body reaches the [catch] with the flag still
    set. A body that reaches its end clears the flag and calls
    [run_at_exit_handlers], whose exception reaches the same [catch]; then
    [return NilObject::the();]. The [catch] calls
    [handle_top_level_exception(env, exception, run_exit_handlers)] and
    returns [nullptr]. *)
Definition EVAL (prog : Program) : list event * option Object :=
  let run_exit_handlers := true in
  match NAT_EVAL_BODY prog with
  | throws exception =>
      ([top_level_exception_handled exception run_exit_handlers], None)
  | returns v => ([], v)
  | falls_through =>
      let run_exit_handlers := false in
      match run_at_exit_handlers prog with
      | Some exception =>
          ([at_exit_handlers_run;
            top_level_exception_handled exception run_exit_handlers], None)
      | None => ([at_exit_handlers_run], Some NilObject)
      end
  end.

(** [_main]: [assert(argc > 0)], then [return EVAL(env)]; [None] when the
    assertion fails. The environment, the main fiber, [$exe] and [ARGV] are
    set up around the assertion and play no part in the result. *)
Definition _main (argc : Z) (prog : Program) : option (list event * option Object) :=
  if 0 <? argc then Some (EVAL prog) else None.

(** [main]: [auto return_code = _main(argc, argv) ? 0 : 1;
             clean_up_and_exit(return_code);] *)
Definition main (argc : Z) (prog : Program) : list event * termination :=
  match _main argc prog with
  | None => ([], Aborted)
  | Some (trace, v) =>
      let return_code := if v is Some _ then 0 else 1 in
      (trace ++ [cleaned_up_and_exited return_code], Exited return_code)
  end.

(** ** A kernel to run the definitions on *)

(** 64-bit words, decimal numerals, a [double] given by its integer mantissa
    and binary exponent and truncated toward zero, pointers printed in
    hexadecimal. *)
Definition lp64_kernel : Kernel := {|
  NAT_INT_MAX := 9223372036854775807;
  NAT_INT_MIN := -9223372036854775808;
  double := Z * Z;
  BigInt_of_String num := Z.of_int <$> DecimalString.NilZero.int_of_string num;
  BigInt_of_double num :=
    Some (if 0 <=? num.2 then num.1 * 2 ^ num.2 else num.1 ÷ 2 ^ (- num.2));
  BigInt_to_string b := DecimalString.NilZero.string_of_int (Z.to_int b);
  format_pointer p :=
    ("0x" ++ HexadecimalString.NilZero.string_of_uint (Pos.to_hex_uint p))%string;
|}.

(** A store with one object at cell 1, owning the kernel value [2^63] in
    kernel cell 1. *)
Definition example_memory : Memory := {|
  bigints := {[ 1%positive := 9223372036854775808 ]};
  objects := {[ 1%positive := {| m_integer := -1; m_bigint := Some 1%positive |} ]};
|}.

(** The same store once the destructor of the object has run. *)
Definition example_memory_destroyed : Memory := {|
  bigints := ∅;
  objects := objects example_memory;
|}.

(** A kernel whose rendering is always empty, to run the fallback of
    [is_odd]. *)
Definition blank_kernel : Kernel := {|
  NAT_INT_MAX := 9223372036854775807;
  NAT_INT_MIN := -9223372036854775808;
  double := Z * Z;
  BigInt_of_String num := None;
  BigInt_of_double num := None;
  BigInt_to_string b := EmptyString;
  format_pointer p := EmptyString;
|}.

(** A store with no object and one kernel value, in kernel cell 7. *)
Definition example_memory_initial : Memory := {|
  bigints := {[ 7%positive := 9223372036854775808 ]};
  objects := ∅;
|}.

(** A program that divides by zero, and one that runs to its end. *)
Definition program_dividing_by_zero : Program := {|
  NAT_EVAL_BODY := throws ZeroDivisionError;
  run_at_exit_handlers := None;
|}.

Definition program_running_to_end : Program := {|
  NAT_EVAL_BODY := falls_through;
  run_at_exit_handlers := None;
|}.

(** A program whose body executes [return] with a null pointer. *)
Definition program_returning_null : Program := {|
  NAT_EVAL_BODY := returns None;
  run_at_exit_handlers := None;
|}.

(** ** More of the store and of the entry point *)

(** No kernel value is left behind: every live kernel cell is the kernel
    value of some live object. *)
Definition no_leak (m : Memory) : Prop :=
  ∀ p, is_Some (bigints m !! p) → owned m p.

(** The store [example_memory_initial] once an object has been constructed
    from the kernel value in cell 7. *)
Definition example_memory_copied : Memory := {|
  bigints := <[ 8%positive := 9223372036854775808 ]>
               {[ 7%positive := 9223372036854775808 ]};
  objects := {[ 1%positive := {| m_integer := -1; m_bigint := Some 8%positive |} ]};
|}.



(** The loop of [_main],
    [for (int i = 1; i < argc; i++) ARGV->push(new StringObject { argv[i] });],
    with [n] iterations to go; [None] when [argv[i]] is outside [argv]. *)
Fixpoint push_arguments (n : nat) (i : Z) (argv ARGV : list string)
  : option (list string) :=
  match n with
  | O => Some ARGV
  | S n' =>
      arg ← argv !! Z.to_nat i;
      push_arguments n' (i + 1) argv (ARGV ++ [arg])
  end.

(** [_main], the arguments: after [assert(argc > 0)], [$exe] is set to
    [argv[0]] and [ARGV] is filled by the loop, which runs [argc - 1] times.
    The result is [$exe] and [ARGV]. *)
Definition _main_arguments (argc : Z) (argv : list string)
  : option (string * list string) :=
  if 0 <? argc then
    exe ← argv !! 0%nat;
    ARGV ← push_arguments (Z.to_nat (argc - 1)) 1 argv [];
    Some (exe, ARGV)
  else None.

(** * Properties *)

(** ** The range predicate and parity *)

(** C1: [has_to_be_bignum] is true exactly when the kernel value is outside
    [[MIN_INT, MAX_INT]]. *)
Theorem has_to_be_bignum_iff_outside_range `{K : Kernel} (this : BignumObject)
    (h : gmap loc BigInt) (b : BigInt) :
  deref h (m_bigint this) = Some b →
  ∃ r, has_to_be_bignum this h = Some r ∧
       (r = true ↔ (b > NAT_INT_MAX ∨ b < NAT_INT_MIN)) ∧
       (r = false ↔ (NAT_INT_MIN ≤ b ≤ NAT_INT_MAX)).
Proof.
  intros Hb. unfold has_to_be_bignum. rewrite Hb. simpl.
  eexists; split; [reflexivity|].
  unfold MAX_INT, MIN_INT.
  destruct (Z.gtb_spec b NAT_INT_MAX), (Z.ltb_spec b NAT_INT_MIN); simpl;
    split; split; intros; try done; try lia.
Qed.

Lemma last_char_app_singleton (pre : string) (c : ascii) :
  last_char (pre ++ String c EmptyString) = c.
Proof.
  induction pre as [|a pre IH]; simpl; [reflexivity|].
  destruct (pre ++ String c EmptyString)%string eqn:E; [|exact IH].
  destruct pre; discriminate.
Qed.

Lemma length_app_singleton (pre : string) (c : ascii) :
  String.length (pre ++ String c EmptyString) = S (String.length pre).
Proof. induction pre; simpl; congruence. Qed.

Lemma digit_parity (d : nat) :
  (d < 10)%nat →
  negb (Z.rem (char_to_int (digit_char d) - char_to_int "0") 2 =? 0) = Nat.odd d.
Proof.
  intros Hd. do 10 (destruct d as [|d]; [reflexivity|]). lia.
Qed.

(** C2: [is_odd] answers [true] for an empty rendering, and otherwise the
    parity of the last decimal digit of the rendering. *)
Theorem is_odd_last_decimal_digit `{K : Kernel} (this : BignumObject)
    (h : gmap loc BigInt) (b : BigInt) :
  deref h (m_bigint this) = Some b →
  (BigInt_to_string b = EmptyString → is_odd this h = Some true) ∧
  (∀ (pre : string) (d : nat), (d < 10)%nat →
     BigInt_to_string b = (pre ++ String (digit_char d) EmptyString)%string →
     is_odd this h = Some (Nat.odd d) ∧
     (is_odd this h = Some true ↔ Nat.Odd d)).
Proof.
  intros Hb. unfold is_odd. rewrite Hb. simpl. split.
  - intros ->. reflexivity.
  - intros pre d Hd ->.
    rewrite length_app_singleton, last_char_app_singleton. simpl negb at 1. cbv iota.
    rewrite digit_parity by assumption. split; [reflexivity|].
    rewrite <- Nat.odd_spec. split; [intros [= ->]; reflexivity | intros ->; reflexivity].
Qed.

(** ** Parity under the decimal rendering *)

Lemma last_parity_revapp (l acc : Decimal.uint) :
  last_parity (Decimal.revapp l acc) =
    match last_parity acc with Some b => Some b | None => head_parity l end.
Proof.
  revert acc. induction l; intros acc; simpl; [by destruct (last_parity acc)|..];
    rewrite IHl; simpl; by destruct (last_parity acc).
Qed.

Lemma last_parity_None (d : Decimal.uint) : last_parity d = None → d = Decimal.Nil.
Proof. destruct d; simpl; try done; by destruct (last_parity d). Qed.

Lemma last_parity_string (d : Decimal.uint) (b : bool) :
  last_parity d = Some b →
  DecimalString.NilEmpty.string_of_uint d ≠ EmptyString ∧
  char_odd (last_char (DecimalString.NilEmpty.string_of_uint d)) = b.
Proof.
  revert b. induction d as [|d IH|d IH|d IH|d IH|d IH|d IH|d IH|d IH|d IH|d IH];
    intros b; simpl; [done|..];
    (destruct (last_parity d) as [b'|] eqn:E;
     [ intros [= <-]; destruct (IH b' eq_refl) as [Hne Hb]; split; [done|];
       destruct (DecimalString.NilEmpty.string_of_uint d); [done|exact Hb]
     | intros [= <-]; split; [done|]; apply last_parity_None in E as ->; reflexivity ]).
Qed.

Lemma head_parity_double (l : Decimal.uint) :
  l ≠ Decimal.Nil →
  head_parity (Decimal.Little.double l) = Some false.
Proof. by destruct l. Qed.

Lemma head_parity_succ_double (l : Decimal.uint) :
  head_parity (Decimal.Little.succ_double l) = Some true.
Proof. by destruct l. Qed.

Lemma to_little_uint_parity (p : positive) :
  head_parity (Pos.to_little_uint p) = Some (Z.odd (Z.pos p)).
Proof.
  destruct p as [p|p|]; simpl; [apply head_parity_succ_double| |done].
  apply head_parity_double. clear. induction p as [p IH|p IH|]; simpl; [| |done].
  - by destruct (Pos.to_little_uint p).
  - by destruct (Pos.to_little_uint p).
Qed.

Lemma decimal_rendering_parity (z : Z) :
  DecimalString.NilZero.string_of_int (Z.to_int z) ≠ EmptyString ∧
  char_odd (last_char (DecimalString.NilZero.string_of_int (Z.to_int z))) = Z.odd z.
Proof.
  assert (Hpos : ∀ p, last_parity (Pos.to_uint p) = Some (Z.odd (Z.pos p))).
  { intros p. unfold Pos.to_uint, Decimal.rev. rewrite last_parity_revapp. simpl.
    apply to_little_uint_parity. }
  destruct z as [|p|p]; simpl; [done|..]; specialize (Hpos p);
    destruct (last_parity_string _ _ Hpos) as [Hne Hb];
    unfold DecimalString.NilZero.string_of_uint;
    destruct (Pos.to_uint p) eqn:E; try discriminate; simpl in *;
    (split; [done|]); try exact Hb.
Qed.

(** With the decimal rendering, the rendering is never empty and [is_odd] is
    the parity of the integer. *)
Lemma is_odd_decimal (this : BignumObject) (h : gmap loc BigInt) (b : BigInt) :
  deref h (m_bigint this) = Some b →
  is_odd (K := lp64_kernel) this h = Some (Z.odd b).
Proof.
  intros Hb. unfold is_odd. rewrite Hb. simpl.
  destruct (decimal_rendering_parity b) as [Hne Hodd].
  destruct (DecimalString.NilZero.string_of_int (Z.to_int b)) as [|c s] eqn:E; [done|].
  simpl negb at 1. cbv iota. f_equal. exact Hodd.
Qed.

(** ** Construction *)

Lemma new_BigInt_fresh (v : BigInt) (h : gmap loc BigInt) :
  h !! (new_BigInt v h).1 = None.
Proof. simpl. apply not_elem_of_dom, is_fresh. Qed.

Lemma construct_inv `{K : Kernel} (c : construction) (h h' : gmap loc BigInt)
    (o : BignumObject) :
  construct c h = Some (o, h') →
  ∃ v, construction_value c h = Some v ∧
       o = {| m_integer := -1; m_bigint := Some (fresh (dom h)) |} ∧
       h' = <[fresh (dom h) := v]> h.
Proof.
  destruct c as [num|other|num]; simpl;
    unfold BignumObject_of_String, BignumObject_of_BigInt, BignumObject_of_double;
    intros H.
  - destruct (BigInt_of_String num) as [v|]; simplify_eq/=. eauto.
  - destruct (h !! other) as [v|]; simplify_eq/=. eauto.
  - destruct (BigInt_of_double num) as [v|]; simplify_eq/=. eauto.
Qed.

Lemma construct_eq `{K : Kernel} (c : construction) (h : gmap loc BigInt) :
  construct c h =
    v ← construction_value c h;
    Some ({| m_integer := -1; m_bigint := Some (fresh (dom h)) |},
          <[fresh (dom h) := v]> h).
Proof.
  destruct c as [num|other|num]; simpl;
    unfold BignumObject_of_String, BignumObject_of_BigInt, BignumObject_of_double.
  - by destruct (BigInt_of_String num).
  - by destruct (h !! other).
  - by destruct (BigInt_of_double num).
Qed.

(** C10: each of the three constructors, whenever the kernel gives it a
    value to own, builds an object whose inherited integer field is [-1],
    and the value of the object is the kernel value it owns: whatever the
    inherited field holds, [to_bigint], [has_to_be_bignum] and [is_odd]
    answer the same. No object is built only when the kernel gives no
    value, and no constructor builds any other object. *)
Theorem constructed_integer_field_is_sentinel `{K : Kernel} (c : construction)
    (h : gmap loc BigInt) :
  (∀ v, construction_value c h = Some v →
     ∃ o h', construct c h = Some (o, h') ∧
       m_integer o = -1 ∧
       to_bigint o h' = Some v ∧
       ∀ i, let o' := {| m_integer := i; m_bigint := m_bigint o |} in
            to_bigint o' h' = Some v ∧
            has_to_be_bignum o' h' = has_to_be_bignum o h' ∧
            is_odd o' h' = is_odd o h') ∧
  (construction_value c h = None → construct c h = None) ∧
  (∀ o h', construct c h = Some (o, h') →
     m_integer o = -1 ∧
     ∃ v, construction_value c h = Some v ∧ to_bigint o h' = Some v).
Proof.
  rewrite construct_eq. split; [|split].
  - intros v ->. simpl. eexists _, _. split; [reflexivity|]. split; [reflexivity|].
    unfold to_bigint. simpl. rewrite lookup_insert_eq. auto.
  - by intros ->.
  - intros o h'. destruct (construction_value c h) as [v|]; [|discriminate].
    simpl. intros [= <- <-]. split; [reflexivity|]. exists v. split; [reflexivity|].
    unfold to_bigint. simpl. apply lookup_insert_eq.
Qed.

(** ** Destruction *)

Lemma destructor_inv (this : loc) (m m1 : Memory) :
  destructor this m = Done m1 →
  ∃ o, objects m !! this = Some o ∧ objects m1 = objects m ∧
       match m_bigint o with
       | Some p => is_Some (bigints m !! p) ∧ bigints m1 = delete p (bigints m)
       | None => bigints m1 = bigints m
       end.
Proof.
  unfold destructor, delete_BigInt. intros H.
  destruct (objects m !! this) as [o|]; [|discriminate].
  exists o. split; [reflexivity|].
  destruct (m_bigint o) as [p|]; [|by simplify_eq].
  destruct (bigints m !! p) as [v|] eqn:Hp; simplify_eq/=. eauto.
Qed.

(** C5, as the destructor has it: run once on an object whose kernel value
    is live, it releases that kernel value and nothing else, leaves the
    object (and so [m_bigint]) as it was, and the object's own storage goes
    only afterwards; with a null [m_bigint] nothing is released. *)
Theorem destructor_releases_kernel_then_storage (m : Memory) (this : loc)
    (o : BignumObject) :
  objects m !! this = Some o →
  (∀ p, m_bigint o = Some p → is_Some (bigints m !! p)) →
  ∃ m1, destructor this m = Done m1 ∧
        bigints m1 = from_option (λ p, delete p (bigints m)) (bigints m) (m_bigint o) ∧
        (∀ p, m_bigint o = Some p → bigints m1 !! p = None) ∧
        objects m1 = objects m ∧
        objects m1 !! this = Some o ∧
        reclaim this m = Done {| bigints := bigints m1; objects := delete this (objects m) |}.
Proof.
  intros Ho Hlive. unfold reclaim, destructor, delete_BigInt. rewrite Ho.
  destruct (m_bigint o) as [p|] eqn:Hp.
  - destruct (Hlive p eq_refl) as [v ->]. eexists; split; [reflexivity|]. simpl.
    repeat split; try done. intros ? [= <-]. apply lookup_delete_eq.
  - exists m. destruct m; simpl in *. repeat split; try done.
Qed.

(** ** Ownership *)

Lemma exclusive_initial (m : Memory) : objects m = ∅ → exclusive m.
Proof.
  intros E. split; intros *; rewrite E, lookup_empty; discriminate.
Qed.

Lemma exclusive_not_owned_fresh (m : Memory) (p : loc) :
  exclusive m → bigints m !! p = None → ¬ owned m p.
Proof.
  intros [Hl _] Hp (a & o & Ho & Hop).
  destruct (Hl a o Ho) as (_ & q & Hq & Hlive).
  rewrite Hop in Hq. injection Hq as <-. rewrite Hp in Hlive. by destruct Hlive.
Qed.

Lemma exclusive_kernel_change (m : Memory) (h' : gmap loc BigInt) :
  exclusive m →
  (∀ p, owned m p → is_Some (bigints m !! p) → is_Some (h' !! p)) →
  exclusive {| bigints := h'; objects := objects m |}.
Proof.
  intros [Hl Hu] Hkeep. split; simpl.
  - intros a o Ho. destruct (Hl a o Ho) as (Hi & p & Hp & Hlive).
    split; [exact Hi|]. exists p. split; [exact Hp|].
    apply Hkeep; [by exists a, o | exact Hlive].
  - exact Hu.
Qed.

Lemma exclusive_new `{K : Kernel} (c : construction) (m m' : Memory) (a : loc) :
  exclusive m → new_BignumObject c m = Some (a, m') → exclusive m'.
Proof.
  intros Hex Hnew. unfold new_BignumObject in Hnew.
  destruct (construct c (bigints m)) as [[o h']|] eqn:Hc; simplify_eq/=.
  apply construct_inv in Hc as (v & _ & -> & ->).
  set (p := fresh (dom (bigints m))). set (a := fresh (dom (objects m))).
  assert (Hp : bigints m !! p = None) by apply not_elem_of_dom, is_fresh.
  assert (Ha : objects m !! a = None) by apply not_elem_of_dom, is_fresh.
  pose proof (exclusive_not_owned_fresh m p Hex Hp) as Hnot.
  destruct Hex as [Hl Hu]. split; simpl.
  - intros a' o'. rewrite lookup_insert. case_decide as Haa.
    + intros [= <-]. simpl. split; [reflexivity|]. exists p.
      rewrite lookup_insert_eq. eauto.
    + intros Ho'. destruct (Hl a' o' Ho') as (Hi & q & Hq & Hlive).
      split; [exact Hi|]. exists q. split; [exact Hq|].
      rewrite lookup_insert. case_decide; eauto.
  - intros a1 a2 o1 o2 q. rewrite !lookup_insert.
    repeat case_decide; subst.
    + done.
    + intros [= <-] Ho2 [= <-] Hq. destruct Hnot. by exists a2, o2.
    + intros Ho1 [= <-] Hq [= <-]. destruct Hnot. by exists a1, o1.
    + apply Hu.
Qed.

Lemma exclusive_reclaim (m m' : Memory) (a : loc) :
  exclusive m → reclaim a m = Done m' → exclusive m'.
Proof.
  intros [Hl Hu] Hre. unfold reclaim in Hre.
  destruct (destructor a m) as [m1|] eqn:Hd; simplify_eq/=.
  apply destructor_inv in Hd as (o & Ho & -> & Hk).
  split; simpl.
  - intros a' o' Ho'. apply lookup_delete_Some in Ho' as [Hne Ho'].
    destruct (Hl a' o' Ho') as (Hi & q & Hq & Hlive).
    split; [exact Hi|]. exists q. split; [exact Hq|].
    destruct (m_bigint o) as [p|] eqn:Hp.
    + destruct Hk as [_ ->]. rewrite lookup_delete_ne; [exact Hlive|].
      intros <-. apply Hne. by apply (Hu a a' o o' p).
    + by rewrite Hk.
  - intros a1 a2 o1 o2 q [_ H1]%lookup_delete_Some [_ H2]%lookup_delete_Some.
    by apply Hu.
Qed.

Lemma exclusive_step `{K : Kernel} (m m' : Memory) :
  exclusive m → step m m' → exclusive m'.
Proof.
  intros Hex Hstep. destruct Hstep as [c m a m' Hnew|a m m' Hre|v m|p v m Hp Hno|p m Hno].
  - by eapply exclusive_new.
  - by eapply exclusive_reclaim.
  - apply exclusive_kernel_change; [exact Hex|]. simpl. intros p _ Hlive.
    rewrite lookup_insert. case_decide; eauto.
  - apply exclusive_kernel_change; [exact Hex|]. intros q _ Hlive.
    rewrite lookup_insert. case_decide; eauto.
  - apply exclusive_kernel_change; [exact Hex|]. intros q Hq Hlive.
    rewrite lookup_delete_ne; [exact Hlive|]. by intros <-.
Qed.

Lemma exclusive_reachable `{K : Kernel} (m0 m : Memory) :
  objects m0 = ∅ → rtc step m0 m → exclusive m.
Proof.
  intros E Hsteps. apply exclusive_initial in E.
  induction Hsteps as [|m1 m2 m3 Hstep _ IH]; [exact E|].
  apply IH. by eapply exclusive_step.
Qed.

(** C6: in a store reached by constructing and reclaiming objects (and by
    other code working on kernel values of its own), constructing an object
    from the kernel value in cell [other] allocates a cell [p] that was not
    live, is not [other] and is owned by no object; it holds the same value,
    which assigning to [other] or releasing [other] afterwards does not
    change; and before and after, no two objects hold one kernel value. *)
Theorem construction_from_kernel_never_aliases `{K : Kernel} (m0 m : Memory)
    (other : loc) (v : BigInt) :
  objects m0 = ∅ → rtc step m0 m → bigints m !! other = Some v →
  exclusive m ∧
  ∃ a p m' o,
    new_BignumObject (FromBigInt other) m = Some (a, m') ∧
    objects m' !! a = Some o ∧ m_bigint o = Some p ∧
    p ≠ other ∧ bigints m !! p = None ∧ ¬ owned m p ∧
    to_bigint o (bigints m') = Some v ∧
    bigints m' !! other = Some v ∧
    (∀ w, to_bigint o (<[other := w]> (bigints m')) = Some v) ∧
    to_bigint o (delete other (bigints m')) = Some v ∧
    exclusive m'.
Proof.
  intros E Hsteps Hother.
  pose proof (exclusive_reachable m0 m E Hsteps) as Hex. split; [exact Hex|].
  set (p := fresh (dom (bigints m))). set (a := fresh (dom (objects m))).
  assert (Hp : bigints m !! p = None) by apply not_elem_of_dom, is_fresh.
  assert (Hne : p ≠ other) by (intros ->; congruence).
  set (o := {| m_integer := -1; m_bigint := Some p |}).
  set (m' := {| bigints := <[p := v]> (bigints m); objects := <[a := o]> (objects m) |}).
  assert (Hnew : new_BignumObject (FromBigInt other) m = Some (a, m')).
  { unfold new_BignumObject. simpl. unfold BignumObject_of_BigInt.
    rewrite Hother. reflexivity. }
  exists a, p, m', o. split; [exact Hnew|].
  split; [apply lookup_insert_eq|]. split; [reflexivity|].
  split; [exact Hne|]. split; [exact Hp|].
  split; [by apply exclusive_not_owned_fresh|].
  unfold to_bigint. simpl.
  split; [apply lookup_insert_eq|].
  split; [by rewrite lookup_insert_ne|].
  split; [intros w; by rewrite lookup_insert_ne, lookup_insert_eq|].
  split; [by rewrite lookup_delete_ne, lookup_insert_eq|].
  by eapply exclusive_new.
Qed.

(** ** The facade *)

Lemma fits_spec `{K : Kernel} (r : Z) :
  Facade.fits r = true ↔ NAT_INT_MIN ≤ r ≤ NAT_INT_MAX.
Proof. unfold Facade.fits. rewrite andb_true_iff, !Z.leb_le. reflexivity. Qed.

Lemma demote_decide `{K : Kernel} (r : Z) :
  Facade.demote r = if decide (NAT_INT_MIN ≤ r ≤ NAT_INT_MAX) then Compact r else Extended r.
Proof.
  unfold Facade.demote. destruct (Facade.fits r) eqn:E; case_decide as H; try done.
  - apply fits_spec in E. contradiction.
  - apply fits_spec in H. congruence.
Qed.

Lemma magnitude_demote `{K : Kernel} (r : Z) : magnitude (Facade.demote r) = r.
Proof. unfold Facade.demote. by destruct (Facade.fits r). Qed.

(** The demotion policy and the range predicate of the class agree: a result
    stays Extended exactly when an object holding it has to be a bignum. *)
Lemma demote_has_to_be_bignum `{K : Kernel} (this : BignumObject)
    (h : gmap loc BigInt) (b : BigInt) :
  deref h (m_bigint this) = Some b →
  has_to_be_bignum this h = Some (negb (Facade.fits b)).
Proof.
  intros Hb. unfold has_to_be_bignum, Facade.fits, MAX_INT, MIN_INT. rewrite Hb. simpl.
  f_equal. destruct (Z.gtb_spec b NAT_INT_MAX), (Z.ltb_spec b NAT_INT_MIN),
    (Z.leb_spec NAT_INT_MIN b), (Z.leb_spec b NAT_INT_MAX); simpl; try done; lia.
Qed.

Lemma compact_checked_demote `{K : Kernel} (r : Z) :
  match Facade.compact_checked r with
  | Some r' => Compact r'
  | None => Facade.demote r
  end = Facade.demote r.
Proof. unfold Facade.compact_checked, Facade.demote. by destruct (Facade.fits r). Qed.

Lemma add_demote `{K : Kernel} (a b : Integer) :
  Facade.add a b = Facade.demote (magnitude a + magnitude b).
Proof. destruct a, b; try done. apply compact_checked_demote. Qed.

Lemma sub_demote `{K : Kernel} (a b : Integer) :
  Facade.sub a b = Facade.demote (magnitude a - magnitude b).
Proof. destruct a, b; try done. apply compact_checked_demote. Qed.

Lemma mul_demote `{K : Kernel} (a b : Integer) :
  Facade.mul a b = Facade.demote (magnitude a * magnitude b).
Proof. destruct a, b; try done. apply compact_checked_demote. Qed.

Lemma negate_demote `{K : Kernel} (a : Integer) :
  Facade.negate a = Facade.demote (- magnitude a).
Proof. destruct a; try done. apply compact_checked_demote. Qed.

Lemma div_demote `{K : Kernel} (a b : Integer) :
  Facade.div a b =
    if magnitude b =? 0 then Raises ZeroDivisionError
    else Returns (Facade.demote (magnitude a / magnitude b)).
Proof.
  destruct a as [n|k], b as [m|l]; try done. simpl.
  unfold Facade.compact_div, Facade.extended_div. simpl.
  destruct (m =? 0); [done|].
  unfold Facade.compact_checked, Facade.demote. by destruct (Facade.fits (n / m)).
Qed.

Lemma mod_demote `{K : Kernel} (a b : Integer) :
  Facade.mod_ a b =
    if magnitude b =? 0 then Raises ZeroDivisionError
    else Returns (Facade.demote (magnitude a mod magnitude b)).
Proof.
  destruct a as [n|k], b as [m|l]; try done. simpl.
  unfold Facade.compact_mod, Facade.extended_mod. simpl.
  destruct (m =? 0); [done|].
  unfold Facade.compact_checked, Facade.demote. by destruct (Facade.fits (n mod m)).
Qed.

(** C3: an Extended operand added to an integer whose sum is within
    [[NAT_INT_MIN, NAT_INT_MAX]] gives a Compact value; and each of add,
    sub, mul, div and negate on an Extended operand gives the Compact value
    of the kernel result when it is within the range, the Extended value
    wrapping it otherwise. *)
Theorem extended_arithmetic_demotes `{K : Kernel} (x : BigInt) (y : Integer) :
  let policy (r : Z) :=
    if decide (NAT_INT_MIN ≤ r ≤ NAT_INT_MAX) then Compact r else Extended r in
  (NAT_INT_MIN ≤ x + magnitude y ≤ NAT_INT_MAX →
     Facade.add (Extended x) y = Compact (x + magnitude y)) ∧
  Facade.add (Extended x) y = policy (x + magnitude y) ∧
  Facade.sub (Extended x) y = policy (x - magnitude y) ∧
  Facade.mul (Extended x) y = policy (x * magnitude y) ∧
  Facade.negate (Extended x) = policy (- x) ∧
  (magnitude y ≠ 0 → Facade.div (Extended x) y = Returns (policy (x / magnitude y))).
Proof.
  intros policy. unfold policy.
  rewrite add_demote, sub_demote, mul_demote, negate_demote, div_demote, !demote_decide.
  simpl. repeat split; try done.
  - intros Hr. by rewrite decide_True.
  - intros Hy. apply Z.eqb_neq in Hy. by rewrite Hy.
Qed.

(** C4: whatever the representation of the dividend and of the zero divisor,
    division raises the division-by-zero exception and returns no value. *)
Theorem division_by_zero_raises `{K : Kernel} (x zero : Integer) :
  magnitude zero = 0 →
  Facade.div x zero = Raises ZeroDivisionError ∧
  ∀ v, Facade.div x zero ≠ Returns v.
Proof.
  intros Hz. rewrite div_demote, Hz. simpl. split; [reflexivity | discriminate].
Qed.

(** C7: for a divisor that is not zero, in any pair of representations,
    division and modulus return, [a = (a div b) * b + (a mod b)], the
    modulus has the sign of the divisor and is smaller in magnitude, and
    the quotient is the floor of the exact quotient. *)
Theorem floor_division_identity `{K : Kernel} (a b : Integer) :
  magnitude b ≠ 0 →
  ∃ q r, Facade.div a b = Returns q ∧ Facade.mod_ a b = Returns r ∧
    magnitude a = magnitude q * magnitude b + magnitude r ∧
    (0 < magnitude b → 0 ≤ magnitude r < magnitude b) ∧
    (magnitude b < 0 → magnitude b < magnitude r ≤ 0) ∧
    (0 < magnitude b →
       magnitude q * magnitude b ≤ magnitude a < (magnitude q + 1) * magnitude b) ∧
    (magnitude b < 0 →
       (magnitude q + 1) * magnitude b < magnitude a ≤ magnitude q * magnitude b).
Proof.
  intros Hb. rewrite div_demote, mod_demote.
  apply Z.eqb_neq in Hb as Hb'. rewrite Hb'.
  eexists _, _. split; [reflexivity|]. split; [reflexivity|].
  rewrite !magnitude_demote.
  pose proof (Z.div_mod (magnitude a) (magnitude b) Hb) as Hdm.
  pose proof (Z.mod_pos_bound (magnitude a) (magnitude b)) as Hpos.
  pose proof (Z.mod_neg_bound (magnitude a) (magnitude b)) as Hneg.
  repeat split; try lia; nia.
Qed.

(** ** The entry point *)

(** C9, as the code has it: with [argc > 0], a body that throws has its
    exception handed to the top-level handler and the process exits with 1
    (so does an exception thrown by the at-exit handlers); a body that runs
    to its end, the at-exit handlers returning, or that returns an object,
    exits with 0; a body that returns a null pointer exits with 1, with no
    exception. The exit code is 0 exactly when [EVAL] returns an object. *)
Theorem top_level_exit_code (argc : Z) (prog : Program) :
  0 < argc →
  (∀ exception, NAT_EVAL_BODY prog = throws exception →
     main argc prog =
       ([top_level_exception_handled exception true; cleaned_up_and_exited 1],
        Exited 1)) ∧
  (∀ exception, NAT_EVAL_BODY prog = falls_through →
     run_at_exit_handlers prog = Some exception →
     main argc prog =
       ([at_exit_handlers_run; top_level_exception_handled exception false;
         cleaned_up_and_exited 1],
        Exited 1)) ∧
  (NAT_EVAL_BODY prog = falls_through → run_at_exit_handlers prog = None →
     main argc prog = ([at_exit_handlers_run; cleaned_up_and_exited 0], Exited 0)) ∧
  (∀ v, NAT_EVAL_BODY prog = returns (Some v) →
     main argc prog = ([cleaned_up_and_exited 0], Exited 0)) ∧
  (NAT_EVAL_BODY prog = returns None →
     main argc prog = ([cleaned_up_and_exited 1], Exited 1)) ∧
  (∃ code, (main argc prog).2 = Exited code ∧
           (code = 0 ∨ code = 1) ∧
           (code = 0 ↔ is_Some (EVAL prog).2)).
Proof.
  intros Hargc. apply Z.ltb_lt in Hargc. unfold main, _main. rewrite Hargc.
  split; [|split; [|split; [|split; [|split]]]].
  - unfold EVAL. by intros exception ->.
  - unfold EVAL. by intros exception -> ->.
  - unfold EVAL. by intros -> ->.
  - unfold EVAL. by intros v ->.
  - unfold EVAL. by intros ->.
  - destruct (EVAL prog) as [trace [v|]]; simpl.
    + exists 0. split; [reflexivity|]. split; [by left|]. split; eauto.
    + exists 1. split; [reflexivity|]. split; [by right|].
      split; [discriminate | by intros [? ?]].
Qed.

(** ** Inspection *)

Lemma snprintf_length (buf : list ascii) (len : nat) (text : string) :
  (len ≤ length buf)%nat → length (snprintf buf len text) = length buf.
Proof.
  destruct len as [|n]; [done|]. unfold snprintf. intros Hlen.
  set (out := take n (list_ascii_of_string text) ++ [NUL]).
  assert (Hout : (length out ≤ S n)%nat).
  { unfold out. rewrite length_app, length_take. simpl. lia. }
  rewrite length_app, length_drop. lia.
Qed.

Lemma snprintf_beyond (buf : list ascii) (len : nat) (text : string) (i : nat) :
  (len ≤ i)%nat → snprintf buf len text !! i = buf !! i.
Proof.
  destruct len as [|n]; [done|]. unfold snprintf. intros Hi.
  set (out := take n (list_ascii_of_string text) ++ [NUL]).
  assert (Hout : (length out ≤ S n)%nat).
  { unfold out. rewrite length_app, length_take. simpl. lia. }
  rewrite lookup_app_r by lia. rewrite lookup_drop. f_equal. lia.
Qed.

Lemma snprintf_text (buf : list ascii) (len : nat) (text : string) :
  (0 < len)%nat →
  let k := (Nat.min (len - 1) (length (list_ascii_of_string text)))%nat in
  take k (snprintf buf len text) = take k (list_ascii_of_string text) ∧
  snprintf buf len text !! k = Some NUL.
Proof.
  destruct len as [|n]; [lia|]. intros _. unfold snprintf.
  replace (S n - 1)%nat with n by lia. cbv zeta.
  set (t := list_ascii_of_string text).
  assert (Hlen : length (take n t) = Nat.min n (length t)) by apply length_take.
  split.
  - rewrite <- app_assoc, take_app_le by lia.
    rewrite take_take. f_equal. lia.
  - rewrite <- app_assoc, lookup_app_r by lia.
    rewrite Hlen, Nat.sub_diag. reflexivity.
Qed.

(** The bounded half of the inspection hook: the characters of the buffer
    from index [len] on are left as they were, the buffer keeps its size,
    and what is stored is the diagnostic text cut to [len - 1] characters
    and terminated by [NUL]. *)
Lemma gc_inspect_within_len `{K : Kernel} (this : loc) (o : BignumObject)
    (h : gmap loc BigInt) (b : BigInt) (buf : list ascii) (len : nat) :
  deref h (m_bigint o) = Some b →
  (len ≤ length buf)%nat →
  let text := ("<IntegerObject " ++ c_str (format_pointer this) ++ " bignum="
                 ++ c_str (BigInt_to_string b) ++ ">")%string in
  ∃ buf', gc_inspect this o h buf len = Some buf' ∧
    length buf' = length buf ∧
    (∀ i, (len ≤ i)%nat → buf' !! i = buf !! i) ∧
    ((0 < len)%nat →
       let k := (Nat.min (len - 1) (length (list_ascii_of_string text)))%nat in
       take k buf' = take k (list_ascii_of_string text) ∧ buf' !! k = Some NUL).
Proof.
  intros Hb Hlen text. unfold gc_inspect. rewrite Hb.
  exists (snprintf buf len text). split; [reflexivity|].
  split; [by apply snprintf_length|].
  split; [intros i Hi; by apply snprintf_beyond|].
  intros Hpos. exact (snprintf_text buf len text Hpos).
Qed.

(** ** The definitions at work *)

Lemma has_to_be_bignum_iff_outside_range_witness :
  deref (bigints example_memory) (Some 1%positive) = Some 9223372036854775808 ∧
  ∃ r, has_to_be_bignum (K := lp64_kernel)
         {| m_integer := -1; m_bigint := Some 1%positive |} (bigints example_memory) = Some r ∧
       (r = true ↔ (9223372036854775808 > 9223372036854775807
                    ∨ 9223372036854775808 < -9223372036854775808)) ∧
       (r = false ↔ (-9223372036854775808 ≤ 9223372036854775808 ≤ 9223372036854775807)).
Proof.
  split; [reflexivity|].
  apply (has_to_be_bignum_iff_outside_range (K := lp64_kernel)
           {| m_integer := -1; m_bigint := Some 1%positive |} (bigints example_memory)
           9223372036854775808).
  reflexivity.
Defined.

Lemma is_odd_last_decimal_digit_witness :
  is_odd (K := lp64_kernel) {| m_integer := -1; m_bigint := Some 1%positive |}
    (bigints example_memory) = Some false ∧
  is_odd (K := blank_kernel) {| m_integer := -1; m_bigint := Some 1%positive |}
    (bigints example_memory) = Some true.
Proof.
  split.
  - refine (proj1 (proj2 (is_odd_last_decimal_digit (K := lp64_kernel)
             {| m_integer := -1; m_bigint := Some 1%positive |} (bigints example_memory)
             9223372036854775808 eq_refl) "922337203685477580"%string 8%nat _ eq_refl)).
    lia.
  - exact (proj1 (is_odd_last_decimal_digit (K := blank_kernel)
             {| m_integer := -1; m_bigint := Some 1%positive |} (bigints example_memory)
             9223372036854775808 eq_refl) eq_refl).
Defined.

Lemma constructed_integer_field_is_sentinel_witness :
  (∃ o h', construct (K := lp64_kernel) (FromString "9223372036854775808") ∅
             = Some (o, h') ∧
           m_integer o = -1 ∧ to_bigint o h' = Some 9223372036854775808) ∧
  (∃ o h', construct (K := lp64_kernel) (FromBigInt 7%positive)
             (bigints example_memory_initial) = Some (o, h') ∧
           m_integer o = -1 ∧ to_bigint o h' = Some 9223372036854775808) ∧
  (∃ o h', construct (K := lp64_kernel) (@FromDouble lp64_kernel (5, 1)) ∅ = Some (o, h') ∧
           m_integer o = -1 ∧ to_bigint o h' = Some 10).
Proof.
  split; [|split].
  - destruct (proj1 (constructed_integer_field_is_sentinel (K := lp64_kernel)
                       (FromString "9223372036854775808") ∅)
                9223372036854775808 eq_refl) as (o & h' & Hc & Hi & Hv & _).
    exists o, h'. split; [exact Hc|]. split; [exact Hi | exact Hv].
  - destruct (proj1 (constructed_integer_field_is_sentinel (K := lp64_kernel)
                       (FromBigInt 7%positive) (bigints example_memory_initial))
                9223372036854775808 eq_refl) as (o & h' & Hc & Hi & Hv & _).
    exists o, h'. split; [exact Hc|]. split; [exact Hi | exact Hv].
  - destruct (proj1 (constructed_integer_field_is_sentinel (K := lp64_kernel)
                       (@FromDouble lp64_kernel (5, 1)) ∅)
                10 eq_refl) as (o & h' & Hc & Hi & Hv & _).
    exists o, h'. split; [exact Hc|]. split; [exact Hi | exact Hv].
Defined.

(** C5, where the claim fails: the destructor run a second time on the same
    object finds [m_bigint] as the first run left it, not null, and releases
    the kernel value again. *)
Lemma destructor_twice_double_free :
  destructor 1%positive example_memory = Done example_memory_destroyed ∧
  objects example_memory_destroyed !! 1%positive =
    Some {| m_integer := -1; m_bigint := Some 1%positive |} ∧
  destructor 1%positive example_memory_destroyed = Fault (DoubleFree 1%positive).
Proof. repeat split. Qed.

Lemma destructor_releases_kernel_then_storage_witness :
  objects example_memory !! 1%positive =
    Some {| m_integer := -1; m_bigint := Some 1%positive |} ∧
  ∃ m1, destructor 1%positive example_memory = Done m1 ∧
        bigints m1 = delete 1%positive (bigints example_memory) ∧
        (∀ p, Some 1%positive = Some p → bigints m1 !! p = None) ∧
        objects m1 = objects example_memory ∧
        objects m1 !! 1%positive = Some {| m_integer := -1; m_bigint := Some 1%positive |} ∧
        reclaim 1%positive example_memory =
          Done {| bigints := bigints m1;
                  objects := delete 1%positive (objects example_memory) |}.
Proof.
  split; [reflexivity|].
  apply (destructor_releases_kernel_then_storage example_memory 1%positive
           {| m_integer := -1; m_bigint := Some 1%positive |} eq_refl).
  intros p [= <-]. exists 9223372036854775808. reflexivity.
Defined.

Lemma construction_from_kernel_never_aliases_witness :
  objects example_memory_initial = ∅ ∧
  bigints example_memory_initial !! 7%positive = Some 9223372036854775808 ∧
  exclusive example_memory_initial ∧
  ∃ a p m' o,
    new_BignumObject (K := lp64_kernel) (FromBigInt 7%positive) example_memory_initial
      = Some (a, m') ∧
    objects m' !! a = Some o ∧ m_bigint o = Some p ∧
    p ≠ 7%positive ∧ bigints example_memory_initial !! p = None ∧
    ¬ owned example_memory_initial p ∧
    to_bigint o (bigints m') = Some 9223372036854775808 ∧
    bigints m' !! 7%positive = Some 9223372036854775808 ∧
    (∀ w, to_bigint o (<[7%positive := w]> (bigints m')) = Some 9223372036854775808) ∧
    to_bigint o (delete 7%positive (bigints m')) = Some 9223372036854775808 ∧
    exclusive m'.
Proof.
  split; [reflexivity|]. split; [reflexivity|].
  apply (construction_from_kernel_never_aliases (K := lp64_kernel)
           example_memory_initial example_memory_initial 7%positive
           9223372036854775808 eq_refl (rtc_refl _ _) eq_refl).
Defined.

Lemma extended_arithmetic_demotes_witness :
  Facade.add (K := lp64_kernel) (Extended 5) (Extended (-3)) = Compact 2 ∧
  Facade.div (K := lp64_kernel) (Extended 9223372036854775808) (Compact 2)
    = Returns (Compact 4611686018427387904).
Proof.
  pose proof (extended_arithmetic_demotes (K := lp64_kernel) 5 (Extended (-3))) as H1.
  pose proof (extended_arithmetic_demotes (K := lp64_kernel) 9223372036854775808
                (Compact 2)) as H2.
  split.
  - refine (proj1 H1 _). simpl. lia.
  - destruct H2 as (_ & _ & _ & _ & _ & Hdiv). refine (Hdiv _). simpl. lia.
Defined.

Lemma division_by_zero_raises_witness :
  Facade.div (K := lp64_kernel) (Extended 9223372036854775808) (Compact 0)
    = Raises ZeroDivisionError ∧
  Facade.div (K := lp64_kernel) (Compact 1) (Extended 0) = Raises ZeroDivisionError.
Proof.
  split.
  - apply (division_by_zero_raises (K := lp64_kernel)
             (Extended 9223372036854775808) (Compact 0) eq_refl).
  - apply (division_by_zero_raises (K := lp64_kernel) (Compact 1) (Extended 0) eq_refl).
Defined.

Lemma floor_division_identity_witness :
  magnitude (Compact 2) ≠ 0 ∧
  ∃ q r, Facade.div (K := lp64_kernel) (Compact (-7)) (Compact 2) = Returns q ∧
         Facade.mod_ (K := lp64_kernel) (Compact (-7)) (Compact 2) = Returns r ∧
         magnitude q = -4 ∧ magnitude r = 1.
Proof.
  assert (Hb : magnitude (Compact 2) ≠ 0) by (simpl; lia).
  split; [exact Hb|].
  destruct (floor_division_identity (K := lp64_kernel) (Compact (-7)) (Compact 2) Hb)
    as (q & r & Hq & Hr & _).
  exists q, r. split; [exact Hq|]. split; [exact Hr|].
  vm_compute in Hq, Hr. injection Hq as <-. injection Hr as <-. split; reflexivity.
Defined.

(** C9, where the claim fails: a body that returns a null pointer completes
    without any exception, the top-level handler is never called, and the
    process exits with 1, not 0. *)
Lemma null_return_exits_with_1 :
  NAT_EVAL_BODY program_returning_null = returns None ∧
  main 1 program_returning_null = ([cleaned_up_and_exited 1], Exited 1) ∧
  (∀ exception flag,
     top_level_exception_handled exception flag ∉ (main 1 program_returning_null).1) ∧
  (main 1 program_returning_null).2 ≠ Exited 0.
Proof.
  split; [reflexivity|]. split; [reflexivity|]. split; [|discriminate].
  intros exception flag Hin. simpl in Hin.
  apply list_elem_of_singleton in Hin. discriminate Hin.
Qed.

Lemma top_level_exit_code_witness :
  0 < 1 ∧
  main 1 program_dividing_by_zero =
    ([top_level_exception_handled ZeroDivisionError true; cleaned_up_and_exited 1],
     Exited 1) ∧
  main 1 program_running_to_end =
    ([at_exit_handlers_run; cleaned_up_and_exited 0], Exited 0) ∧
  main 1 program_returning_null = ([cleaned_up_and_exited 1], Exited 1).
Proof.
  assert (H : 0 < 1) by lia.
  split; [exact H|].
  destruct (top_level_exit_code 1 program_dividing_by_zero H) as (Hthrow & _).
  destruct (top_level_exit_code 1 program_running_to_end H) as (_ & _ & Hend & _).
  destruct (top_level_exit_code 1 program_returning_null H)
    as (_ & _ & _ & _ & Hnull & _).
  split; [exact (Hthrow ZeroDivisionError eq_refl)|].
  split; [exact (Hend eq_refl eq_refl) | exact (Hnull eq_refl)].
Defined.

(** * Further properties of the code *)

(** ** Parity *)

Lemma char_odd_code (c : ascii) : char_odd c = N.odd (N_of_ascii c).
Proof. destruct c as [[] [] [] [] [] [] [] []]; reflexivity. Qed.

(** X1: [is_odd] does not check that the rendering is a numeral: for any
    rendering that is not empty, it answers whether the code of the last
    character is odd (the same whether [char] is signed or not). *)
Theorem is_odd_last_char_code `{K : Kernel} (this : BignumObject)
    (h : gmap loc BigInt) (b : BigInt) :
  deref h (m_bigint this) = Some b →
  BigInt_to_string b ≠ EmptyString →
  is_odd this h = Some (N.odd (N_of_ascii (last_char (BigInt_to_string b)))).
Proof.
  intros Hb Hne. unfold is_odd. rewrite Hb. simpl.
  destruct (BigInt_to_string b) as [|c s] eqn:E; [done|].
  simpl negb at 1. cbv iota. f_equal. apply char_odd_code.
Qed.

Lemma is_odd_last_char_code_witness :
  deref (bigints example_memory) (Some 1%positive) = Some 9223372036854775808 ∧
  BigInt_to_string (Kernel := lp64_kernel) 9223372036854775808 ≠ EmptyString ∧
  is_odd (K := lp64_kernel) {| m_integer := -1; m_bigint := Some 1%positive |}
    (bigints example_memory) = Some false.
Proof.
  assert (Hne : BigInt_to_string (Kernel := lp64_kernel) 9223372036854775808
                  ≠ EmptyString) by discriminate.
  split; [reflexivity|]. split; [exact Hne|].
  exact (is_odd_last_char_code (K := lp64_kernel)
           {| m_integer := -1; m_bigint := Some 1%positive |} (bigints example_memory)
           9223372036854775808 eq_refl Hne).
Defined.

(** X2: when the kernel renders a value as its decimal numeral (a minus sign
    for a negative value, then the digits), [is_odd] is the parity of the
    integer, negative values included, and the fallback for an empty
    rendering is never taken. *)
Theorem is_odd_canonical_decimal `{K : Kernel} (this : BignumObject)
    (h : gmap loc BigInt) (b : BigInt) :
  (∀ z, BigInt_to_string z = DecimalString.NilZero.string_of_int (Z.to_int z)) →
  deref h (m_bigint this) = Some b →
  BigInt_to_string b ≠ EmptyString ∧ is_odd this h = Some (Z.odd b).
Proof.
  intros Hdec Hb. destruct (decimal_rendering_parity b) as [Hne Hodd].
  rewrite <- Hdec in Hne, Hodd. split; [exact Hne|].
  unfold is_odd. rewrite Hb. simpl.
  destruct (BigInt_to_string b) as [|c s] eqn:E; [done|].
  simpl negb at 1. cbv iota. f_equal. exact Hodd.
Qed.

Lemma is_odd_canonical_decimal_witness :
  BigInt_to_string (Kernel := lp64_kernel) (-7) ≠ EmptyString ∧
  is_odd (K := lp64_kernel) {| m_integer := -1; m_bigint := Some 3%positive |}
    {[ 3%positive := -7 ]} = Some true.
Proof.
  exact (is_odd_canonical_decimal (K := lp64_kernel)
           {| m_integer := -1; m_bigint := Some 3%positive |} {[ 3%positive := -7 ]}
           (-7) (λ z, eq_refl) eq_refl).
Defined.

(** ** Construction and the store *)

Lemma observers_agree `{K : Kernel} (o o' : BignumObject) (h h' : gmap loc BigInt) :
  to_bigint o' h' = to_bigint o h →
  has_to_be_bignum o' h' = has_to_be_bignum o h ∧ is_odd o' h' = is_odd o h.
Proof.
  unfold to_bigint, has_to_be_bignum, is_odd. intros ->. split; reflexivity.
Qed.

(** X3: a constructor allocates exactly one kernel cell, one that was not
    live, and touches no other: every cell that was live keeps its value,
    and [to_bigint], [has_to_be_bignum] and [is_odd] of any object whose
    kernel value was live answer as before. *)
Theorem construct_frame `{K : Kernel} (c : construction) (h h' : gmap loc BigInt)
    (o : BignumObject) :
  construct c h = Some (o, h') →
  ∃ p v, m_bigint o = Some p ∧ h !! p = None ∧ h' !! p = Some v ∧
    dom h' = {[ p ]} ∪ dom h ∧
    (∀ q, q ≠ p → h' !! q = h !! q) ∧
    ∀ o0, is_Some (to_bigint o0 h) →
      to_bigint o0 h' = to_bigint o0 h ∧
      has_to_be_bignum o0 h' = has_to_be_bignum o0 h ∧
      is_odd o0 h' = is_odd o0 h.
Proof.
  intros (v & _ & -> & ->)%construct_inv.
  set (p := fresh (dom h)).
  assert (Hp : h !! p = None) by apply not_elem_of_dom, is_fresh.
  exists p, v. split; [reflexivity|]. split; [exact Hp|].
  split; [apply lookup_insert_eq|]. split; [apply dom_insert_L|].
  split; [intros q Hq; by apply lookup_insert_ne|].
  intros o0 Hlive.
  assert (Hsame : to_bigint o0 (<[p := v]> h) = to_bigint o0 h).
  { unfold to_bigint, deref in *. destruct (m_bigint o0) as [q|]; [|done]. simpl in *.
    apply lookup_insert_ne. intros <-. rewrite Hp in Hlive. by destruct Hlive. }
  split; [exact Hsame|]. by apply observers_agree.
Qed.

Lemma construct_frame_witness :
  construct (K := lp64_kernel) (FromString "12") {[ 7%positive := 9223372036854775808 ]}
    = Some ({| m_integer := -1; m_bigint := Some 8%positive |},
            <[ 8%positive := 12 ]> {[ 7%positive := 9223372036854775808 ]}) ∧
  ∃ p v, Some 8%positive = Some p ∧
    ({[ 7%positive := 9223372036854775808 ]} : gmap loc BigInt) !! p = None ∧
    (<[ 8%positive := 12 ]> {[ 7%positive := 9223372036854775808 ]} : gmap loc BigInt) !! p
      = Some v.
Proof.
  assert (Hc : construct (K := lp64_kernel) (FromString "12")
                 {[ 7%positive := 9223372036854775808 ]}
               = Some ({| m_integer := -1; m_bigint := Some 8%positive |},
                       <[ 8%positive := 12 ]> {[ 7%positive := 9223372036854775808 ]}))
    by reflexivity.
  split; [exact Hc|].
  destruct (construct_frame (K := lp64_kernel) _ _ _ _ Hc) as (p & v & H1 & H2 & H3 & _).
  exists p, v. split; [exact H1|]. split; [exact H2 | exact H3].
Defined.

(** X4: copying an object through its kernel value (the constructor from
    [BigInt] applied to what [m_bigint] designates) gives an object on a
    different cell for which [to_bigint], [has_to_be_bignum] and [is_odd]
    answer as for the original, and the original answers as before. *)
Theorem copy_agrees_with_original `{K : Kernel} (o : BignumObject)
    (h : gmap loc BigInt) (p : loc) (v : BigInt) :
  m_bigint o = Some p → h !! p = Some v →
  ∃ o' h', construct (FromBigInt p) h = Some (o', h') ∧
    m_bigint o' ≠ m_bigint o ∧
    to_bigint o' h' = Some v ∧ to_bigint o h' = Some v ∧
    has_to_be_bignum o' h' = has_to_be_bignum o h ∧
    is_odd o' h' = is_odd o h ∧
    has_to_be_bignum o h' = has_to_be_bignum o h ∧
    is_odd o h' = is_odd o h.
Proof.
  intros Hp Hv. simpl. unfold BignumObject_of_BigInt. rewrite Hv. simpl.
  set (q := fresh (dom h)).
  assert (Hq : h !! q = None) by apply not_elem_of_dom, is_fresh.
  assert (Hne : q ≠ p) by (intros ->; congruence).
  eexists _, _. split; [reflexivity|].
  assert (H0 : to_bigint o h = Some v) by (unfold to_bigint; by rewrite Hp).
  assert (H1 : to_bigint {| m_integer := -1; m_bigint := Some q |} (<[q := v]> h) = Some v)
    by apply lookup_insert_eq.
  assert (H2 : to_bigint o (<[q := v]> h) = Some v).
  { unfold to_bigint. rewrite Hp. simpl. by rewrite lookup_insert_ne. }
  split; [rewrite Hp; simpl; congruence|].
  split; [exact H1|]. split; [exact H2|].
  destruct (observers_agree {| m_integer := -1; m_bigint := Some q |} o (<[q := v]> h) h)
    as [? ?]; [congruence|].
  destruct (observers_agree o o (<[q := v]> h) h) as [? ?]; [congruence|].
  done.
Qed.

Lemma copy_agrees_with_original_witness :
  bigints example_memory !! 1%positive = Some 9223372036854775808 ∧
  ∃ o' h', construct (K := lp64_kernel) (FromBigInt 1%positive) (bigints example_memory)
             = Some (o', h') ∧
    to_bigint o' h' = Some 9223372036854775808.
Proof.
  split; [reflexivity|].
  destruct (copy_agrees_with_original (K := lp64_kernel)
              {| m_integer := -1; m_bigint := Some 1%positive |} (bigints example_memory)
              1%positive 9223372036854775808 eq_refl eq_refl)
    as (o' & h' & Hc & _ & Hv & _).
  exists o', h'. split; [exact Hc | exact Hv].
Defined.

(** ** Reclamation *)

(** X5: an object that is constructed and then reclaimed leaves the store
    exactly as it was: the kernel cell and the object cell are both
    released, and nothing else has changed. *)
Theorem new_then_reclaim_restores `{K : Kernel} (c : construction) (m m' : Memory)
    (a : loc) :
  new_BignumObject c m = Some (a, m') →
  reclaim a m' = Done m.
Proof.
  intros Hnew. unfold new_BignumObject in Hnew.
  destruct (construct c (bigints m)) as [[o h']|] eqn:Hc; simplify_eq/=.
  apply construct_inv in Hc as (v & _ & -> & ->).
  set (p := fresh (dom (bigints m))). set (a := fresh (dom (objects m))).
  assert (Hp : bigints m !! p = None) by apply not_elem_of_dom, is_fresh.
  assert (Ha : objects m !! a = None) by apply not_elem_of_dom, is_fresh.
  unfold reclaim, destructor, delete_BigInt. simpl.
  rewrite !lookup_insert_eq. simpl. rewrite lookup_insert_eq. simpl.
  rewrite !delete_insert_eq, !delete_id by assumption.
  by destruct m.
Qed.

Lemma new_then_reclaim_restores_witness :
  new_BignumObject (K := lp64_kernel) (FromBigInt 7%positive) example_memory_initial
    = Some (1%positive, example_memory_copied) ∧
  reclaim 1%positive example_memory_copied = Done example_memory_initial.
Proof.
  assert (Hnew : new_BignumObject (K := lp64_kernel) (FromBigInt 7%positive)
                   example_memory_initial = Some (1%positive, example_memory_copied))
    by reflexivity.
  split; [exact Hnew|].
  exact (new_then_reclaim_restores (K := lp64_kernel) _ _ _ _ Hnew).
Defined.

Lemma example_memory_copied_reachable :
  rtc (step (K := lp64_kernel)) example_memory_initial example_memory_copied.
Proof.
  apply rtc_once. apply (step_new (FromBigInt 7%positive) _ 1%positive). reflexivity.
Defined.

Lemma reclaim_exclusive (m : Memory) (a : loc) (o : BignumObject) :
  exclusive m → objects m !! a = Some o →
  ∃ p v, m_bigint o = Some p ∧ bigints m !! p = Some v ∧
    reclaim a m = Done {| bigints := delete p (bigints m);
                          objects := delete a (objects m) |} ∧
    ∀ a' o', a' ≠ a → objects m !! a' = Some o' →
      is_Some (to_bigint o' (delete p (bigints m))) ∧
      to_bigint o' (delete p (bigints m)) = to_bigint o' (bigints m).
Proof.
  intros [Hl Hu] Ho.
  destruct (Hl a o Ho) as (_ & p & Hp & [v Hv]).
  exists p, v. split; [exact Hp|]. split; [exact Hv|].
  split; [unfold reclaim, destructor, delete_BigInt; by rewrite Ho, Hp, Hv|].
  intros a' o' Hne Ho'.
  destruct (Hl a' o' Ho') as (_ & p' & Hp' & Hlive').
  assert (Hpp : p ≠ p').
  { intros <-. apply Hne. by apply (Hu a' a o' o p). }
  unfold to_bigint. rewrite Hp'. simpl. rewrite lookup_delete_ne by exact Hpp.
  split; [exact Hlive' | reflexivity].
Qed.

(** X6: in a store reached from one without objects, reclaiming a live
    object never faults: its kernel value is live and is released, its cell
    is released, every other object stays, and the value of every other
    object is what it was. *)
Theorem reclaim_safe_when_reachable `{K : Kernel} (m0 m : Memory) (a : loc)
    (o : BignumObject) :
  objects m0 = ∅ → rtc step m0 m → objects m !! a = Some o →
  ∃ p v m', m_bigint o = Some p ∧ bigints m !! p = Some v ∧
    reclaim a m = Done m' ∧
    bigints m' = delete p (bigints m) ∧
    objects m' = delete a (objects m) ∧
    ∀ a' o', a' ≠ a → objects m !! a' = Some o' →
      objects m' !! a' = Some o' ∧
      is_Some (to_bigint o' (bigints m')) ∧
      to_bigint o' (bigints m') = to_bigint o' (bigints m).
Proof.
  intros E Hsteps Ho.
  pose proof (exclusive_reachable m0 m E Hsteps) as Hex.
  destruct (reclaim_exclusive m a o Hex Ho) as (p & v & Hp & Hv & Hre & Hothers).
  exists p, v, {| bigints := delete p (bigints m); objects := delete a (objects m) |}.
  split; [exact Hp|]. split; [exact Hv|]. split; [exact Hre|].
  split; [reflexivity|]. split; [reflexivity|]. simpl.
  intros a' o' Hne Ho'. split; [by rewrite lookup_delete_ne|].
  by apply (Hothers a' o').
Qed.

Lemma reclaim_safe_when_reachable_witness :
  objects example_memory_initial = ∅ ∧
  objects example_memory_copied !! 1%positive
    = Some {| m_integer := -1; m_bigint := Some 8%positive |} ∧
  ∃ p v m', Some 8%positive = Some p ∧ bigints example_memory_copied !! p = Some v ∧
    reclaim 1%positive example_memory_copied = Done m'.
Proof.
  split; [reflexivity|]. split; [reflexivity|].
  destruct (reclaim_safe_when_reachable (K := lp64_kernel) example_memory_initial
              example_memory_copied 1%positive
              {| m_integer := -1; m_bigint := Some 8%positive |}
              eq_refl example_memory_copied_reachable eq_refl)
    as (p & v & m' & H1 & H2 & H3 & _).
  exists p, v, m'. split; [exact H1|]. split; [exact H2 | exact H3].
Defined.

(** X7: constructing an object and reclaiming an object both keep the store
    free of leaks: if every live kernel cell was the kernel value of a live
    object, it is so afterwards. *)
Theorem no_leak_preserved `{K : Kernel} (c : construction) (a : loc) (m m' : Memory) :
  no_leak m →
  new_BignumObject c m = Some (a, m') ∨ reclaim a m = Done m' →
  no_leak m'.
Proof.
  intros Hno [Hnew|Hre].
  - unfold new_BignumObject in Hnew.
    destruct (construct c (bigints m)) as [[o h']|] eqn:Hc; simplify_eq/=.
    apply construct_inv in Hc as (v & _ & -> & ->).
    set (p := fresh (dom (bigints m))). set (a := fresh (dom (objects m))).
    assert (Ha : objects m !! a = None) by apply not_elem_of_dom, is_fresh.
    intros q. simpl. rewrite lookup_insert. case_decide as Hq.
    + intros _. subst q. exists a. eexists. simpl.
      rewrite lookup_insert_eq. split; reflexivity.
    + intros (a' & o' & Ho' & Hp')%Hno. exists a', o'. simpl.
      split; [|exact Hp']. rewrite lookup_insert_ne; [exact Ho'|].
      intros <-. congruence.
  - unfold reclaim in Hre.
    destruct (destructor a m) as [m1|] eqn:Hd; simplify_eq/=.
    apply destructor_inv in Hd as (o & Ho & Hobj & Hk).
    intros q. simpl. intros Hq.
    assert (Hq' : is_Some (bigints m !! q) ∧ m_bigint o ≠ Some q).
    { destruct (m_bigint o) as [p|].
      - destruct Hk as [_ Hk]. rewrite Hk in Hq.
        apply lookup_delete_is_Some in Hq as [Hne Hq]. split; [exact Hq | congruence].
      - rewrite Hk in Hq. split; [exact Hq | discriminate]. }
    destruct Hq' as [Hlive Hne].
    destruct (Hno q Hlive) as (a' & o' & Ho' & Hp').
    exists a', o'. simpl. split; [|exact Hp'].
    rewrite Hobj. rewrite lookup_delete_ne; [exact Ho'|].
    intros <-. congruence.
Qed.

Lemma no_leak_example_memory : no_leak example_memory.
Proof.
  intros p [v Hv]. unfold example_memory in Hv. simpl in Hv.
  apply lookup_singleton_Some in Hv as [<- _].
  exists 1%positive, {| m_integer := -1; m_bigint := Some 1%positive |}.
  split; reflexivity.
Defined.

Lemma no_leak_preserved_witness :
  no_leak example_memory ∧
  reclaim 1%positive example_memory = Done {| bigints := ∅; objects := ∅ |} ∧
  no_leak {| bigints := ∅; objects := ∅ |}.
Proof.
  assert (Hre : reclaim 1%positive example_memory = Done {| bigints := ∅; objects := ∅ |})
    by reflexivity.
  split; [exact no_leak_example_memory|]. split; [exact Hre|].
  exact (no_leak_preserved (K := lp64_kernel) (FromString EmptyString) 1%positive
           example_memory _ no_leak_example_memory (or_intror Hre)).
Defined.

(** X8: in a store reached from one without objects, no method of a live
    object dereferences a null or released pointer: [to_bigint],
    [has_to_be_bignum], [is_odd] and [gc_inspect] all return, on the kernel
    value the object owns. *)
Theorem observers_defined_when_reachable `{K : Kernel} (m0 m : Memory) (a : loc)
    (o : BignumObject) :
  objects m0 = ∅ → rtc step m0 m → objects m !! a = Some o →
  ∃ p v, m_bigint o = Some p ∧ bigints m !! p = Some v ∧
    to_bigint o (bigints m) = Some v ∧
    is_Some (has_to_be_bignum o (bigints m)) ∧
    is_Some (is_odd o (bigints m)) ∧
    ∀ buf len, is_Some (gc_inspect a o (bigints m) buf len).
Proof.
  intros E Hsteps Ho.
  pose proof (exclusive_reachable m0 m E Hsteps) as [Hl _].
  destruct (Hl a o Ho) as (_ & p & Hp & [v Hv]).
  exists p, v. split; [exact Hp|]. split; [exact Hv|].
  unfold to_bigint, has_to_be_bignum, is_odd, gc_inspect. rewrite Hp. simpl. rewrite Hv. simpl.
  split; [reflexivity|]. split; [eauto|]. split; [|eauto].
  destruct (negb _); eauto.
Qed.

Lemma observers_defined_when_reachable_witness :
  objects example_memory_initial = ∅ ∧
  objects example_memory_copied !! 1%positive
    = Some {| m_integer := -1; m_bigint := Some 8%positive |} ∧
  ∃ p v, Some 8%positive = Some p ∧ bigints example_memory_copied !! p = Some v ∧
    to_bigint {| m_integer := -1; m_bigint := Some 8%positive |}
      (bigints example_memory_copied) = Some v.
Proof.
  split; [reflexivity|]. split; [reflexivity|].
  destruct (observers_defined_when_reachable (K := lp64_kernel) example_memory_initial
              example_memory_copied 1%positive
              {| m_integer := -1; m_bigint := Some 8%positive |}
              eq_refl example_memory_copied_reachable eq_refl)
    as (p & v & H1 & H2 & H3 & _).
  exists p, v. split; [exact H1|]. split; [exact H2 | exact H3].
Defined.

(** X9: one step of a program, from a store reached from one without
    objects, never changes an object it does not reclaim: the object is
    either gone or the same, with the same value. *)
Theorem step_keeps_live_values `{K : Kernel} (m0 m m' : Memory) (a : loc)
    (o : BignumObject) :
  objects m0 = ∅ → rtc step m0 m → step m m' → objects m !! a = Some o →
  objects m' !! a = None ∨
  (objects m' !! a = Some o ∧
   is_Some (to_bigint o (bigints m')) ∧
   to_bigint o (bigints m') = to_bigint o (bigints m)).
Proof.
  intros E Hsteps Hstep Ho.
  pose proof (exclusive_reachable m0 m E Hsteps) as Hex.
  destruct (excl_live m Hex a o Ho) as (_ & p & Hp & [v Hv]).
  assert (Hown : owned m p) by (by exists a, o).
  assert (Hval : to_bigint o (bigints m) = Some v) by (unfold to_bigint; by rewrite Hp).
  assert (Hkeep : ∀ h', h' !! p = Some v →
            is_Some (to_bigint o h') ∧ to_bigint o h' = to_bigint o (bigints m)).
  { intros h' Hh'. rewrite Hval. unfold to_bigint. rewrite Hp. simpl. rewrite Hh'. eauto. }
  destruct Hstep as [c m a1 m' Hnew|a1 m m' Hre|v1 m|q v1 m Hq Hno|q m Hno].
  - right. unfold new_BignumObject in Hnew.
    destruct (construct c (bigints m)) as [[o1 h']|] eqn:Hc; simplify_eq/=.
    apply construct_inv in Hc as (v1 & _ & -> & ->).
    split.
    + rewrite lookup_insert_ne; [exact Ho|]. intros Heq.
      pose proof (is_fresh (dom (objects m))) as Hf. rewrite Heq in Hf.
      apply Hf, elem_of_dom. eauto.
    + apply Hkeep. rewrite lookup_insert_ne; [exact Hv|]. intros Heq.
      pose proof (is_fresh (dom (bigints m))) as Hf. rewrite Heq in Hf.
      apply Hf, elem_of_dom. eauto.
  - destruct (decide (a1 = a)) as [->|Hne].
    + left. destruct (reclaim_exclusive m a o Hex Ho) as (? & ? & _ & _ & Hre' & _).
      rewrite Hre' in Hre. injection Hre as <-. simpl. apply lookup_delete_eq.
    + right. assert (∃ o1, objects m !! a1 = Some o1) as [o1 Ho1].
      { unfold reclaim in Hre. destruct (destructor a1 m) as [m1|] eqn:Hd; [|discriminate].
        apply destructor_inv in Hd as (o1 & Ho1 & _). eauto. }
      destruct (reclaim_exclusive m a1 o1 Hex Ho1) as (p1 & w & _ & _ & Hre' & Hothers).
      rewrite Hre' in Hre. injection Hre as <-. simpl.
      split; [by rewrite lookup_delete_ne|]. by apply (Hothers a o).
  - right. split; [exact Ho|]. simpl. apply Hkeep.
    rewrite lookup_insert_ne; [exact Hv|]. intros Heq.
    pose proof (is_fresh (dom (bigints m))) as Hf. rewrite Heq in Hf.
    apply Hf, elem_of_dom. eauto.
  - right. split; [exact Ho|]. simpl. apply Hkeep.
    rewrite lookup_insert_ne; [exact Hv|]. by intros ->.
  - right. split; [exact Ho|]. simpl. apply Hkeep.
    rewrite lookup_delete_ne; [exact Hv|]. by intros ->.
Qed.

Lemma example_memory_copied_not_owned_7 : ¬ owned example_memory_copied 7%positive.
Proof.
  intros (a & o & Ho & Hp). unfold example_memory_copied in Ho. simpl in Ho.
  apply lookup_singleton_Some in Ho as [_ <-]. discriminate.
Defined.

Lemma step_keeps_live_values_witness :
  objects example_memory_initial = ∅ ∧
  objects example_memory_copied !! 1%positive
    = Some {| m_integer := -1; m_bigint := Some 8%positive |} ∧
  to_bigint {| m_integer := -1; m_bigint := Some 8%positive |}
    (delete 7%positive (bigints example_memory_copied)) = Some 9223372036854775808.
Proof.
  split; [reflexivity|]. split; [reflexivity|].
  destruct (step_keeps_live_values (K := lp64_kernel) example_memory_initial
              example_memory_copied _ 1%positive
              {| m_integer := -1; m_bigint := Some 8%positive |}
              eq_refl example_memory_copied_reachable
              (step_kernel_release 7%positive example_memory_copied
                 example_memory_copied_not_owned_7) eq_refl)
    as [Hgone|(_ & _ & Hsame)].
  - discriminate Hgone.
  - exact Hsame.
Defined.

(** ** Inspection, further *)

Lemma list_ascii_of_string_app (s1 s2 : string) :
  list_ascii_of_string (s1 ++ s2) = list_ascii_of_string s1 ++ list_ascii_of_string s2.
Proof. induction s1 as [|c s1 IH]; simpl; [reflexivity | by rewrite IH]. Qed.

Lemma c_str_no_NUL (s : string) : NUL ∉ list_ascii_of_string (c_str s).
Proof.
  induction s as [|c s IH]; simpl; [apply not_elem_of_nil|].
  destruct (Ascii.eqb c NUL) eqn:E; simpl; [apply not_elem_of_nil|].
  apply not_elem_of_cons. split; [|exact IH].
  intros <-. by rewrite Ascii.eqb_refl in E.
Qed.

Lemma c_str_id (s : string) : NUL ∉ list_ascii_of_string s → c_str s = s.
Proof.
  induction s as [|c s IH]; simpl; [reflexivity|].
  intros [Hc Hs]%not_elem_of_cons.
  destruct (Ascii.eqb c NUL) eqn:E.
  - apply Ascii.eqb_eq in E. congruence.
  - by rewrite IH.
Qed.

(** The rendering is cut where it holds its first [NUL], and nowhere else. *)
Lemma c_str_spec (s : string) :
  ∃ rest, s = (c_str s ++ rest)%string ∧
          (rest = EmptyString ∨ ∃ rest', rest = String NUL rest').
Proof.
  induction s as [|c s (rest & IH & Hrest)]; simpl; [exists EmptyString; auto|].
  destruct (Ascii.eqb c NUL) eqn:E.
  - apply Ascii.eqb_eq in E as ->. exists (String NUL s). simpl. eauto.
  - exists rest. split; [exact (f_equal (String c) IH) | exact Hrest].
Qed.

(** X10: [gc_inspect] writes inside the first [len] characters of the buffer
    only: the buffer keeps its size and everything from index [len] on is
    as it was; with [len = 0] nothing is written. The diagnostic text holds
    the rendering of the kernel value up to its first [NUL] (all of it when
    it has none) and no [NUL] itself. A text shorter than [len] is stored
    whole and followed by [NUL]; a longer one is cut to its first [len - 1]
    characters, followed by [NUL]. *)
Theorem gc_inspect_bounded_write `{K : Kernel} (this : loc) (o : BignumObject)
    (h : gmap loc BigInt) (b : BigInt) (buf : list ascii) (len : nat) :
  deref h (m_bigint o) = Some b →
  (len ≤ length buf)%nat →
  let text := list_ascii_of_string
                ("<IntegerObject " ++ c_str (format_pointer this) ++ " bignum="
                   ++ c_str (BigInt_to_string b) ++ ">")%string in
  ∃ buf', gc_inspect this o h buf len = Some buf' ∧
    length buf' = length buf ∧
    drop len buf' = drop len buf ∧
    (len = 0%nat → buf' = buf) ∧
    ((length text < len)%nat →
       take (length text) buf' = text ∧ buf' !! length text = Some NUL) ∧
    ((0 < len ≤ length text)%nat →
       take (len - 1) buf' = take (len - 1) text ∧ buf' !! (len - 1)%nat = Some NUL) ∧
    (NUL ∉ text) ∧
    (NUL ∉ list_ascii_of_string (BigInt_to_string b) →
       c_str (BigInt_to_string b) = BigInt_to_string b).
Proof.
  intros Hb Hlen text. unfold gc_inspect. rewrite Hb.
  eexists. split; [reflexivity|].
  set (s := ("<IntegerObject " ++ c_str (format_pointer this) ++ " bignum="
               ++ c_str (BigInt_to_string b) ++ ">")%string) in *.
  split; [by apply snprintf_length|].
  split.
  { apply list_eq. intros i. rewrite !lookup_drop. apply snprintf_beyond. lia. }
  split; [by intros ->|].
  split.
  { intros Hfit. destruct (snprintf_text buf len s) as [Ht Hn]; [lia|].
    fold text in Ht, Hn.
    replace (Nat.min (len - 1) (length text)) with (length text) in Ht, Hn by lia.
    split; [|exact Hn]. by rewrite Ht, take_ge. }
  split.
  { intros [Hpos Hcut]. destruct (snprintf_text buf len s Hpos) as [Ht Hn].
    fold text in Ht, Hn.
    replace (Nat.min (len - 1) (length text)) with (len - 1)%nat in Ht, Hn by lia.
    split; [exact Ht | exact Hn]. }
  split; [|apply c_str_id].
  unfold text, s. rewrite !list_ascii_of_string_app, !elem_of_app.
  pose proof (c_str_no_NUL (format_pointer this)) as H1.
  pose proof (c_str_no_NUL (BigInt_to_string b)) as H2.
  intros [Hin|[Hin|[Hin|[Hin|Hin]]]]; try contradiction;
    apply list_elem_of_In in Hin; simpl in Hin; unfold NUL in Hin;
    repeat (destruct Hin as [Hin|Hin]; [discriminate Hin|]); exact Hin.
Qed.

Lemma gc_inspect_bounded_write_witness :
  deref (bigints example_memory) (Some 1%positive) = Some 9223372036854775808 ∧
  (4 ≤ length (list_ascii_of_string "abcdefgh"))%nat ∧
  gc_inspect (K := lp64_kernel) 1%positive
    {| m_integer := -1; m_bigint := Some 1%positive |} (bigints example_memory)
    (list_ascii_of_string "abcdefgh") 4
  = Some (list_ascii_of_string "<In" ++ [NUL] ++ list_ascii_of_string "efgh").
Proof.
  assert (Hlen : (4 ≤ length (list_ascii_of_string "abcdefgh"))%nat) by (simpl; lia).
  split; [reflexivity|]. split; [exact Hlen|].
  destruct (gc_inspect_bounded_write (K := lp64_kernel) 1%positive
              {| m_integer := -1; m_bigint := Some 1%positive |} (bigints example_memory)
              9223372036854775808 (list_ascii_of_string "abcdefgh") 4 eq_refl Hlen)
    as (buf' & Hbuf & _).
  rewrite Hbuf. vm_compute in Hbuf. injection Hbuf as <-. reflexivity.
Defined.

(** ** The entry point, further *)







(** ** The arguments of the program *)

Lemma push_arguments_take (n : nat) (i : Z) (argv ARGV : list string) :
  0 ≤ i → (Z.to_nat i + n ≤ length argv)%nat →
  push_arguments n i argv ARGV = Some (ARGV ++ take n (drop (Z.to_nat i) argv)).
Proof.
  revert i ARGV. induction n as [|n IH]; intros i ARGV Hi Hlen; simpl.
  - by rewrite take_0, app_nil_r.
  - destruct (lookup_lt_is_Some_2 argv (Z.to_nat i)) as [arg Harg]; [lia|].
    rewrite Harg. simpl. rewrite IH by lia.
    rewrite (drop_S _ _ _ Harg). simpl.
    replace (Z.to_nat (i + 1)) with (S (Z.to_nat i)) by lia.
    by rewrite <- app_assoc.
Qed.

(** X13: given at least [argc] strings with [argc > 0], [_main] sets [$exe]
    to [argv[0]] and fills [ARGV] with [argv[1]] to [argv[argc - 1]] in
    order: [ARGV] has [argc - 1] elements and never holds the name of the
    program; when [argv] has exactly [argc] strings, [ARGV] is its tail. *)
Theorem _main_arguments_spec (argc : Z) (argv : list string) :
  0 < argc → argc ≤ Z.of_nat (length argv) →
  ∃ exe ARGV, _main_arguments argc argv = Some (exe, ARGV) ∧
    argv !! 0%nat = Some exe ∧
    ARGV = take (Z.to_nat (argc - 1)) (drop 1 argv) ∧
    Z.of_nat (length ARGV) = argc - 1 ∧
    (∀ i arg, ARGV !! i = Some arg → argv !! S i = Some arg) ∧
    (argc = Z.of_nat (length argv) → argv = exe :: ARGV).
Proof.
  intros Hargc Hlen. unfold _main_arguments.
  apply Z.ltb_lt in Hargc as Hargc'. rewrite Hargc'.
  destruct argv as [|exe rest]; [simpl in Hlen; lia|]. simpl in Hlen.
  exists exe, (take (Z.to_nat (argc - 1)) rest). simpl.
  rewrite push_arguments_take by (simpl; lia). simpl.
  split; [reflexivity|]. split; [reflexivity|]. split; [reflexivity|].
  split; [rewrite length_take; lia|].
  split.
  - intros i arg Hi. by apply lookup_take_Some in Hi as [Hi _].
  - intros Heq. f_equal. symmetry. apply take_ge. lia.
Qed.

Lemma _main_arguments_spec_witness :
  0 < 3 ∧ 3 ≤ Z.of_nat (length ["prog"; "a"; "b"]%string) ∧
  _main_arguments 3 ["prog"; "a"; "b"]%string = Some ("prog", ["a"; "b"])%string.
Proof.
  assert (H1 : 0 < 3) by lia.
  assert (H2 : 3 ≤ Z.of_nat (length ["prog"; "a"; "b"]%string)) by (simpl; lia).
  split; [exact H1|]. split; [exact H2|].
  destruct (_main_arguments_spec 3 ["prog"; "a"; "b"]%string H1 H2)
    as (exe & ARGV & Hm & _ & _ & _ & _ & Htail).
  rewrite Hm. injection (Htail eq_refl) as <- <-. reflexivity.
Defined.
